(** * LexiLight: text highlighting engine and PDF layout reconstruction

    A shallow embedding of [createHighlightedSegments],
    [mergeOverlappingHighlights], [validateHighlightRules] (the text
    highlighting engine) and of the page loop of [extractTextFromPDF],
    together with the properties the specification states about them.

    JavaScript strings are sequences of UTF-16 code units; a code unit is
    a number of type [N].  Offsets into strings are integers ([Z]).  Page
    coordinates are numbers: a number is given by its value, a rational
    ([Q]), and arithmetic on numbers rounds its result to the nearest
    double as IEEE 754 prescribes ([toDouble]). *)

From Stdlib Require Import List ZArith NArith QArith Qround Qabs Bool Lia.
From Stdlib Require Import String Ascii.
From Stdlib Require Import Sorting.Sorted Sorting.Permutation Lqa.
Import ListNotations.

Open Scope Z_scope.

(* ================================================================== *)
(** ** JavaScript strings *)
(* ================================================================== *)

Definition code_unit := N.
Definition jsstring := list code_unit.

(** A Rocq string literal read as a sequence of code units (Latin-1). *)
Definition js (s : string) : jsstring :=
  List.map N_of_ascii (list_ascii_of_string s).

Definition LF : code_unit := 10%N.
Definition SPACE : code_unit := 32%N.
Definition BACKSLASH : code_unit := 92%N.
Definition PLUS : code_unit := 43%N.
Definition LOWER_S : code_unit := 115%N.

(** The class [\s] of a regular expression, which is also the set that
    [String.prototype.trim] strips: WhiteSpace and LineTerminator. *)
Definition isWhiteSpace (c : code_unit) : bool :=
  ((9 <=? c) && (c <=? 13) || (c =? 32) || (c =? 160) || (c =? 5760)
   || (8192 <=? c) && (c <=? 8202) || (c =? 8232) || (c =? 8233)
   || (c =? 8239) || (c =? 8287) || (c =? 12288) || (c =? 65279))%N.

Definition strlen (s : jsstring) : Z := Z.of_nat (List.length s).

Definition clamp (len a : Z) : Z := Z.min (Z.max a 0) len.

(** [s.substring(a, b)]: both arguments are clamped to [0, length] and
    swapped when the first is the larger. *)
Definition substring (s : jsstring) (a b : Z) : jsstring :=
  let intStart := clamp (strlen s) a in
  let intEnd := clamp (strlen s) b in
  let from := Z.min intStart intEnd in
  let to := Z.max intStart intEnd in
  firstn (Z.to_nat (to - from)) (skipn (Z.to_nat from) s).

(** [s.substring(a)]: the end defaults to the length. *)
Definition substringFrom (s : jsstring) (a : Z) : jsstring :=
  substring s a (strlen s).

Fixpoint trimStart (s : jsstring) : jsstring :=
  match s with
  | [] => []
  | c :: r => if isWhiteSpace c then trimStart r else s
  end.

Definition trimEnd (s : jsstring) : jsstring :=
  rev (trimStart (rev s)).

Definition trim (s : jsstring) : jsstring := trimEnd (trimStart s).

(** [' '.repeat(n)]. *)
Definition spaces (n : Z) : jsstring := repeat SPACE (Z.to_nat n).

(** [Array.prototype.sort] with a comparator is stable: an element goes
    before the first one that compares strictly greater.  [leb a b] is
    [cmp(a, b) <= 0]. *)
Section StableSort.
Context {A : Type} (leb : A -> A -> bool).

Fixpoint sortInsert (x : A) (l : list A) : list A :=
  match l with
  | [] => [x]
  | y :: l' => if leb x y then x :: l else y :: sortInsert x l'
  end.

Fixpoint stableSort (l : list A) : list A :=
  match l with
  | [] => []
  | x :: l' => sortInsert x (stableSort l')
  end.
End StableSort.

(* ================================================================== *)
(** ** The fragment of regular expressions the highlighter builds *)
(* ================================================================== *)

(** The fourteen syntax characters of a pattern; the character class of
    the first [replace] in [createHighlightedSegments],
    [/[.*+?^${}()|[\]\\]/g], lists exactly these. *)
Definition isSyntaxChar (c : code_unit) : bool :=
  ((c =? 46) || (c =? 42) || (c =? 43) || (c =? 63) || (c =? 94)
   || (c =? 36) || (c =? 123) || (c =? 125) || (c =? 40) || (c =? 41)
   || (c =? 124) || (c =? 91) || (c =? 93) || (c =? 92))%N.

Inductive atom : Type :=
| Lit (c : code_unit)   (* a pattern character, or an escaped syntax character *)
| Space.                (* the class \s *)

Inductive term : Type :=
| One (a : atom)        (* a *)
| Plus (a : atom).      (* a+ , greedy *)

Definition regex := list term.

(** Reading a pattern source.  Only what the highlighter can produce is
    read: pattern characters, a backslash followed by a syntax character,
    [\s], and the quantifier [+] after an atom.  Any other construct gives
    [None]. *)
Fixpoint parsePattern (src : jsstring) : option regex :=
  match src with
  | [] => Some []
  | c :: r =>
      if (c =? BACKSLASH)%N then
        match r with
        | [] => None
        | d :: r' =>
            if (d =? LOWER_S)%N then
              match r' with
              | [] => Some [One Space]
              | p :: r'' =>
                  if (p =? PLUS)%N
                  then option_map (cons (Plus Space)) (parsePattern r'')
                  else option_map (cons (One Space)) (parsePattern r')
              end
            else if isSyntaxChar d then
              match r' with
              | [] => Some [One (Lit d)]
              | p :: r'' =>
                  if (p =? PLUS)%N
                  then option_map (cons (Plus (Lit d))) (parsePattern r'')
                  else option_map (cons (One (Lit d))) (parsePattern r')
              end
            else None
        end
      else if isSyntaxChar c then None
      else
        match r with
        | [] => Some [One (Lit c)]
        | p :: r' =>
            if (p =? PLUS)%N
            then option_map (cons (Plus (Lit c))) (parsePattern r')
            else option_map (cons (One (Lit c))) (parsePattern r)
        end
  end.

(** The two [replace] calls that turn a rule text into a pattern source. *)

(** [text.replace(/[.*+?^${}()|[\]\\]/g, '\\$&')]: a backslash goes in
    front of every syntax character. *)
Fixpoint escapeRegExp (text : jsstring) : jsstring :=
  match text with
  | [] => []
  | c :: r =>
      if isSyntaxChar c then BACKSLASH :: c :: escapeRegExp r
      else c :: escapeRegExp r
  end.

(** [escaped.replace(/\s+/g, '\\s+')]: every maximal run of whitespace
    becomes the three characters [\s+].  [inRun] tells that the previous
    character belonged to a run that has been replaced already. *)
Fixpoint replaceRuns (inRun : bool) (s : jsstring) : jsstring :=
  match s with
  | [] => []
  | c :: r =>
      if isWhiteSpace c then
        if inRun then replaceRuns true r
        else BACKSLASH :: LOWER_S :: PLUS :: replaceRuns true r
      else c :: replaceRuns false r
  end.

Definition replaceWhitespace (s : jsstring) : jsstring := replaceRuns false s.

Definition patternSource (text : jsstring) : jsstring :=
  replaceWhitespace (escapeRegExp text).

(* ================================================================== *)
(** ** Matching *)
(* ================================================================== *)

Section Matcher.
(** The host's upper-case conversion of a one-code-unit string; the
    Unicode tables stay outside of the model. *)
Variable toUpperCase : code_unit -> jsstring.

(** Canonicalize of a pattern without the [u] flag. *)
Definition canonicalize (ignoreCase : bool) (ch : code_unit) : code_unit :=
  if ignoreCase then
    match toUpperCase ch with
    | [cu] => if ((128 <=? ch) && (cu <? 128))%N then ch else cu
    | _ => ch
    end
  else ch.

Definition atomMatches (ignoreCase : bool) (a : atom) (c : code_unit) : bool :=
  match a with
  | Lit l => (canonicalize ignoreCase l =? canonicalize ignoreCase c)%N
  | Space => isWhiteSpace c
  end.

(** [a+] followed by the rest of the pattern, whose matcher is [k]: at
    least one character, as many as can be taken, given back one at a
    time when the rest fails. *)
Fixpoint matchPlus (ignoreCase : bool) (a : atom)
    (k : jsstring -> option nat) (s : jsstring) : option nat :=
  match s with
  | c :: s' =>
      if atomMatches ignoreCase a c then
        match matchPlus ignoreCase a k s' with
        | Some n => Some (S n)
        | None => option_map S (k s')
        end
      else None
  | [] => None
  end.

(** Backtracking match of a pattern at the head of [s]; the result is the
    length of the first match in priority order. *)
Fixpoint matchHere (ignoreCase : bool) (r : regex) (s : jsstring)
    {struct r} : option nat :=
  match r with
  | [] => Some 0%nat
  | One a :: r' =>
      match s with
      | c :: s' =>
          if atomMatches ignoreCase a c
          then option_map S (matchHere ignoreCase r' s')
          else None
      | [] => None
      end
  | Plus a :: r' => matchPlus ignoreCase a (matchHere ignoreCase r') s
  end.

(** The leftmost position at or after [pos] where the pattern matches;
    [s] is the text from [pos] on. *)
Fixpoint searchFrom (ignoreCase : bool) (r : regex) (s : jsstring)
    (pos : nat) : option (nat * nat) :=
  match matchHere ignoreCase r s with
  | Some n => Some (pos, n)
  | None =>
      match s with
      | [] => None
      | _ :: s' => searchFrom ignoreCase r s' (S pos)
      end
  end.

(** [regex.exec(text)] of a global pattern whose [lastIndex] is
    [lastIndex]: [Some (index, length of match[0])], or [None] for null. *)
Definition exec (ignoreCase : bool) (r : regex) (text : jsstring)
    (lastIndex : nat) : option (nat * nat) :=
  if (List.length text <? lastIndex)%nat then None
  else searchFrom ignoreCase r (skipn lastIndex text) lastIndex.

Record HighlightRule : Type := mkRule {
  rule_text : jsstring;
  rule_color : jsstring;
  caseSensitive : bool
}.

Record Highlight : Type := mkHighlight {
  h_start : Z;
  h_end : Z;
  h_color : jsstring
}.

Record Segment : Type := mkSegment {
  text : jsstring;
  highlighted : bool;
  color : option jsstring
}.

(** One [match] object of the [while] loop: index and length of
    [match[0]]. *)
Definition zeroLength (m : nat * nat) : bool := (snd m =? 0)%nat.

(** The [while ((match = regex.exec(originalText)) !== null)] loop; the
    result lists the matches in the order found.  [fuel] bounds the
    number of calls of [exec]; [None] when it runs out. *)
Fixpoint execLoop (fuel : nat) (ignoreCase : bool) (r : regex)
    (originalText : jsstring) (lastIndex : nat) : option (list (nat * nat)) :=
  match fuel with
  | O => None
  | S fuel' =>
      match exec ignoreCase r originalText lastIndex with
      | None => Some []
      | Some m =>
          let lastIndex1 := (fst m + snd m)%nat in
          let lastIndex2 := if zeroLength m then S lastIndex1 else lastIndex1 in
          option_map (cons m)
            (execLoop fuel' ignoreCase r originalText lastIndex2)
      end
  end.

Definition toHighlight (rule : HighlightRule) (m : nat * nat) : Highlight :=
  {| h_start := Z.of_nat (fst m);
     h_end := Z.of_nat (fst m) + Z.of_nat (snd m);
     h_color := rule_color rule |}.

(** Calls of [exec] that are enough for any text: [lastIndex] grows with
    every match and the call after it has passed the length fails. *)
Definition enoughFuel (originalText : jsstring) : nat :=
  S (S (List.length originalText)).

(** The matches of one rule, in the order found. *)
Definition ruleMatches (originalText : jsstring) (rule : HighlightRule)
    : option (list (nat * nat)) :=
  match parsePattern (patternSource (rule_text rule)) with
  | None => None
  | Some r =>
      execLoop (enoughFuel originalText) (negb (caseSensitive rule)) r
        originalText 0
  end.

(** The body of [highlightRules.forEach]: what one rule pushes. *)
Definition ruleHighlights (originalText : jsstring) (rule : HighlightRule)
    : option (list Highlight) :=
  option_map (List.map (toHighlight rule)) (ruleMatches originalText rule).

Fixpoint collectHighlights (originalText : jsstring)
    (rules : list HighlightRule) (highlights : list Highlight)
    : option (list Highlight) :=
  match rules with
  | [] => Some highlights
  | rule :: rules' =>
      match ruleHighlights originalText rule with
      | None => None
      | Some hs => collectHighlights originalText rules' (highlights ++ hs)
      end
  end.

(** [highlights.sort((a, b) => a.start - b.start)]. *)
Definition sortByStart (highlights : list Highlight) : list Highlight :=
  stableSort (fun a b => h_start a <=? h_start b) highlights.

(** The [for] loop of [mergeOverlappingHighlights]. *)
Fixpoint mergeLoop (merged : list Highlight) (current : Highlight)
    (rest : list Highlight) : list Highlight :=
  match rest with
  | [] => merged ++ [current]
  | next :: rest' =>
      if h_start next <? h_end current then
        let merged1 :=
          if h_start next >? h_start current then
            merged ++ [ {| h_start := h_start current;
                           h_end := h_start next;
                           h_color := h_color current |} ]
          else merged in
        mergeLoop merged1
          {| h_start := h_start next;
             h_end := Z.max (h_end current) (h_end next);
             h_color := h_color next |}
          rest'
      else mergeLoop (merged ++ [current]) next rest'
  end.

Definition mergeOverlappingHighlights (highlights : list Highlight)
    : list Highlight :=
  match highlights with
  | [] => []
  | first :: rest => mergeLoop [] first rest
  end.

(** The body of [mergedHighlights.forEach]; the state is [segments] and
    [currentIndex]. *)
Definition segmentStep (originalText : jsstring)
    (st : list Segment * Z) (highlight : Highlight) : list Segment * Z :=
  let (segments, currentIndex) := st in
  let segments1 :=
    if h_start highlight >? currentIndex then
      segments ++
        [ {| text := substring originalText currentIndex (h_start highlight);
             highlighted := false;
             color := None |} ]
    else segments in
  (segments1 ++
     [ {| text := substring originalText (h_start highlight) (h_end highlight);
          highlighted := true;
          color := Some (h_color highlight) |} ],
   h_end highlight).

Definition plainSegment (originalText : jsstring) : Segment :=
  {| text := originalText; highlighted := false; color := None |}.

Definition buildSegments (originalText : jsstring)
    (mergedHighlights : list Highlight) : list Segment :=
  let (segments, currentIndex) :=
    fold_left (segmentStep originalText) mergedHighlights ([], 0) in
  let segments1 :=
    if currentIndex <? strlen originalText then
      segments ++
        [ {| text := substringFrom originalText currentIndex;
             highlighted := false;
             color := None |} ]
    else segments in
  match segments1 with
  | [] => [plainSegment originalText]
  | _ => segments1
  end.

(** [createHighlightedSegments(originalText, highlightRules)];
    [highlightRules] is [None] for a null or undefined argument.  The
    result is [None] when a pattern is outside the fragment read by
    [parsePattern] or a scan runs out of fuel; neither happens
    ([createHighlightedSegments_total]). *)
Definition createHighlightedSegments (originalText : jsstring)
    (highlightRules : option (list HighlightRule)) : option (list Segment) :=
  match highlightRules with
  | None | Some [] => Some [plainSegment originalText]
  | Some rules =>
      match collectHighlights originalText rules [] with
      | None => None
      | Some highlights =>
          Some (buildSegments originalText
                  (mergeOverlappingHighlights (sortByStart highlights)))
      end
  end.
End Matcher.

(** An upper-case conversion that knows Basic Latin only; the host used
    where a property is evaluated on a concrete text. *)
Definition latinUpperCase (c : code_unit) : jsstring :=
  if ((97 <=? c) && (c <=? 122))%N then [(c - 32)%N] else [c].

(* ================================================================== *)
(** ** Rule validation *)
(* ================================================================== *)

(** The values a field of a rule object can hold. *)
Inductive JsValue : Type :=
| JsUndefined
| JsNull
| JsBoolean (b : bool)
| JsNumber (n : Z)
| JsString (s : jsstring)
| JsObject.

(** A rule as [validateHighlightRules] receives it: nothing is known about
    the fields yet. *)
Record RawRule : Type := mkRawRule {
  raw_text : JsValue;
  raw_color : JsValue;
  raw_caseSensitive : JsValue
}.

Definition toBoolean (v : JsValue) : bool :=
  match v with
  | JsUndefined | JsNull => false
  | JsBoolean b => b
  | JsNumber n => negb (n =? 0)
  | JsString s => match s with [] => false | _ => true end
  | JsObject => true
  end.

Definition isString (v : JsValue) : bool :=
  match v with JsString _ => true | _ => false end.

Definition isBoolean (v : JsValue) : bool :=
  match v with JsBoolean _ => true | _ => false end.

Definition isUndefined (v : JsValue) : bool :=
  match v with JsUndefined => true | _ => false end.

Definition jsstring_eqb (a b : jsstring) : bool :=
  if list_eq_dec N.eq_dec a b then true else false.

(** [HIGHLIGHT_COLORS] and [Object.values(HIGHLIGHT_COLORS)]. *)
Definition HIGHLIGHT_COLORS_RED : jsstring := js "red".
Definition HIGHLIGHT_COLORS_GREEN : jsstring := js "green".
Definition HIGHLIGHT_COLORS_YELLOW : jsstring := js "yellow".

Definition validColors : list jsstring :=
  [HIGHLIGHT_COLORS_RED; HIGHLIGHT_COLORS_GREEN; HIGHLIGHT_COLORS_YELLOW].

(** [validColors.includes(v)]. *)
Definition includes (l : list jsstring) (v : JsValue) : bool :=
  match v with
  | JsString s => existsb (jsstring_eqb s) l
  | _ => false
  end.

(** The three messages, each with the one-based number of the rule:
    "Rule n: Text is required and must be a non-empty string",
    "Rule n: Color must be one of: red, green, yellow",
    "Rule n: caseSensitive must be a boolean". *)
Inductive RuleError : Type :=
| TextRequired (ruleNumber : nat)
| ColorNotListed (ruleNumber : nat)
| CaseSensitiveNotBoolean (ruleNumber : nat).

Definition textRejected (rule : RawRule) : bool :=
  negb (toBoolean (raw_text rule))
  || negb (isString (raw_text rule))
  || match raw_text rule with
     | JsString s => match trim s with [] => true | _ => false end
     | _ => false
     end.

Definition colorRejected (rule : RawRule) : bool :=
  negb (toBoolean (raw_color rule)) || negb (includes validColors (raw_color rule)).

Definition caseSensitiveRejected (rule : RawRule) : bool :=
  negb (isUndefined (raw_caseSensitive rule))
  && negb (isBoolean (raw_caseSensitive rule)).

(** The body of [rules.forEach((rule, index) => ...)]: what one rule
    pushes to [errors]. *)
Definition ruleErrors (rule : RawRule) (index : nat) : list RuleError :=
  (if textRejected rule then [TextRequired (index + 1)] else [])
  ++ (if colorRejected rule then [ColorNotListed (index + 1)] else [])
  ++ (if caseSensitiveRejected rule
      then [CaseSensitiveNotBoolean (index + 1)] else []).

Fixpoint validateLoop (rules : list RawRule) (index : nat)
    (errors : list RuleError) : list RuleError :=
  match rules with
  | [] => errors
  | rule :: rules' =>
      validateLoop rules' (S index) (errors ++ ruleErrors rule index)
  end.

Record ValidationResult : Type := mkValidation {
  isValid : bool;
  errors : list RuleError
}.

(** [validateHighlightRules(rules)] for an argument that is an array. *)
Definition validateHighlightRules (rules : list RawRule) : ValidationResult :=
  let errors := validateLoop rules 0 [] in
  {| isValid := (List.length errors =? 0)%nat; errors := errors |}.

(** The colour vocabulary of the documentation of [HighlightRule]: red,
    green, yellow, or a hex colour of the form #RRGGBB. *)
Definition isHexDigit (c : code_unit) : bool :=
  ((48 <=? c) && (c <=? 57) || (65 <=? c) && (c <=? 70)
   || (97 <=? c) && (c <=? 102))%N.

Definition isHexColor (s : jsstring) : bool :=
  match s with
  | h :: digits =>
      (h =? 35)%N && (List.length digits =? 6)%nat && forallb isHexDigit digits
  | [] => false
  end.

Definition documentedColor (s : jsstring) : bool :=
  existsb (jsstring_eqb s) validColors || isHexColor s.

(* ================================================================== *)
(** ** Layout reconstruction: the page loop of extractTextFromPDF *)
(* ================================================================== *)

(** A text item of a page as the decoder hands it over.  Of
    [item.transform] only the elements 4 (x) and 5 (y) are read; [None]
    stands for a missing transform.  [item_width] is [item.width || 0]. *)
Record TextItem : Type := mkTextItem {
  item_str : jsstring;
  item_transform : option (Q * Q);
  item_width : Q
}.

(** An entry of a line: [{ text, x, y, width }]. *)
Record Placed : Type := mkPlaced {
  p_text : jsstring;
  p_x : Q;
  p_y : Q;
  p_width : Q
}.

(** [a > b] on numbers. *)
Definition Qgt_bool (a b : Q) : bool := negb (Qle_bool a b).

(** Numbers are IEEE 754 doubles.  A finite double is modelled by the
    rational it stands for, and an operation by the exact operation
    followed by [toDouble], the rounding to the nearest double, ties to
    the even mantissa: 53 bits of mantissa, exponents down to the
    subnormal numbers (multiples of 2^-1074).  Infinities and NaN have no
    value here: a result beyond the largest double is kept as it is. *)
Definition pow2 (e : Z) : Q :=
  if 0 <=? e then inject_Z (2 ^ e) else 1 # Z.to_pos (2 ^ (- e)).

(** The nearest integer, halves to the even one. *)
Definition roundHalfEven (q : Q) : Z :=
  let n := Qnum q in
  let d := Zpos (Qden q) in
  let down := n / d in
  let twice := 2 * (n mod d) in
  if twice <? d then down
  else if d <? twice then down + 1
  else if Z.even down then down else down + 1.

(** The exponent [k] with 2^k <= a < 2^(k+1), for a positive [a]. *)
Definition floorLog2 (a : Q) : Z :=
  let k := Z.log2 (Qnum a) - Z.log2 (Zpos (Qden a)) in
  if Qle_bool (pow2 k) a then k else k - 1.

Definition toDouble (q : Q) : Q :=
  if Qeq_bool q 0 then 0%Q
  else
    let a := Qabs q in
    let e := Z.max (floorLog2 a - 52) (-1074) in
    let r := Qred (inject_Z (roundHalfEven (a / pow2 e)) * pow2 e) in
    if Qle_bool 0 q then r else (- r)%Q.

(** [a + b], [a - b] and [a / b] on numbers. *)
Definition numAdd (a b : Q) : Q := toDouble (a + b).
Definition numSub (a b : Q) : Q := toDouble (a - b).
Definition numDiv (a b : Q) : Q := toDouble (a / b).

(** [Math.round]: the nearest integer, halves upwards.  It is applied
    to [y / 2], and the result is doubled: halving and doubling a double
    are exact. *)
Definition mathRound (q : Q) : Z := Qfloor (q + (1 # 2))%Q.

Definition mathFloor (q : Q) : Z := Qfloor q.

(** [lineMap]: the keys in the order of their first insertion, each with
    the items pushed under it. *)
Definition LineMap := list (Z * list Placed).

Fixpoint linePush (lineKey : Z) (p : Placed) (lineMap : LineMap) : LineMap :=
  match lineMap with
  | [] => [(lineKey, [p])]
  | (k, items) :: lineMap' =>
      if k =? lineKey then (k, items ++ [p]) :: lineMap'
      else (k, items) :: linePush lineKey p lineMap'
  end.

(** The body of [textContent.items.forEach]. *)
Definition groupStep (lineMap : LineMap) (item : TextItem) : LineMap :=
  match item_str item, item_transform item with
  | [], _ => lineMap
  | _, None => lineMap
  | _, Some (x, y) =>
      let lineKey := mathRound (y / 2)%Q * 2 in
      linePush lineKey
        {| p_text := item_str item; p_x := x; p_y := y;
           p_width := item_width item |}
        lineMap
  end.

(** [Array.from(lineMap.entries()).sort((a, b) => b[0] - a[0])]. *)
Definition sortLines (lineMap : LineMap) : LineMap :=
  stableSort (fun a b => fst b <=? fst a) lineMap.

(** [items.sort((a, b) => a.x - b.x)].  Doubles are multiples of
    2^-1074, so the difference of two of them does not round to zero
    unless it is zero: the sign of [a.x - b.x] is the sign of the exact
    difference. *)
Definition sortItems (items : list Placed) : list Placed :=
  stableSort (fun a b => Qle_bool (p_x a) (p_x b)) items.

(** What goes in front of an item that is not the first of its line. *)
Definition gapSeparator (gap : Q) : jsstring :=
  if Qgt_bool gap 5%Q then spaces (Z.max 1 (mathFloor (numDiv gap 5)))
  else if Qgt_bool gap 1%Q then [SPACE]
  else [].

(** What goes in front of the first item of a line. *)
Definition indentation (x : Q) : jsstring :=
  let indent := mathFloor (numDiv x 6) in
  if indent >? 0 then spaces indent else [].

(** The body of [items.forEach]; the state is [lineText] and [lastXEnd]
    ([None] for null). *)
Definition itemStep (st : jsstring * option Q) (item : Placed)
    : jsstring * option Q :=
  let (lineText, lastXEnd) := st in
  let lineText1 :=
    match lastXEnd with
    | Some xEnd => lineText ++ gapSeparator (numSub (p_x item) xEnd)
    | None => lineText ++ indentation (p_x item)
    end in
  (lineText1 ++ p_text item, Some (numAdd (p_x item) (p_width item))).

Definition lineTextOf (items : list Placed) : jsstring :=
  fst (fold_left itemStep (sortItems items) ([], None)).

(** The lines of a page, top of the page first, without their newline. *)
Definition pageLines (items : list TextItem) : list jsstring :=
  List.map (fun entry => lineTextOf (snd entry))
    (sortLines (fold_left groupStep items [])).

(** [sortedLines.forEach]: [pageText += lineText + '\n']. *)
Definition pageTextOf (items : list TextItem) : jsstring :=
  fold_left (fun pageText lineText => pageText ++ lineText ++ [LF])
    (pageLines items) [].

(** The [for] loop over the pages: [pages] are those from [pageNum] on. *)
Fixpoint pageLoop (pages : list (list TextItem)) (pageNum totalPages : nat)
    (fullText : jsstring) : jsstring :=
  match pages with
  | [] => fullText
  | page :: pages' =>
      let pageText := pageTextOf page in
      let fullText1 :=
        if (pageNum <? totalPages)%nat then fullText ++ pageText ++ [LF]
        else fullText ++ pageText in
      pageLoop pages' (S pageNum) totalPages fullText1
  end.

(** [extractTextFromPDF] once the decoder has delivered the text items of
    every page. *)
Definition extractTextFromPDF (pages : list (list TextItem)) : jsstring :=
  trim (pageLoop pages 1 (List.length pages) []).

(* ================================================================== *)
(** ** Predicates of the specification *)
(* ================================================================== *)

(** Sorted by non-decreasing start. *)
Definition startsSorted (l : list Highlight) : Prop :=
  StronglySorted (fun a b => h_start a <= h_start b) l.

Definition wellFormed (h : Highlight) : Prop := h_start h <= h_end h.

(** Position [p] lies inside the span. *)
Definition inside (p : Z) (h : Highlight) : Prop :=
  h_start h <= p < h_end h.

(** Position [p] is covered by a span of the list. *)
Definition covers (l : list Highlight) (p : Z) : Prop := Exists (inside p) l.

(** The span ends where the other starts, or earlier. *)
Definition endsBefore (a b : Highlight) : Prop := h_end a <= h_start b.

Definition withinText (len : Z) (h : Highlight) : Prop :=
  0 <= h_start h /\ h_end h <= len.

(** The pattern the specification describes for a rule text: one [\s+]
    for every maximal run of whitespace, every other character for
    itself.  [inRun] tells that the previous character was whitespace. *)
Fixpoint ruleTokensFrom (inRun : bool) (text : jsstring) : regex :=
  match text with
  | [] => []
  | c :: r =>
      if isWhiteSpace c then
        if inRun then ruleTokensFrom true r
        else Plus Space :: ruleTokensFrom true r
      else One (Lit c) :: ruleTokensFrom false r
  end.

Definition ruleTokens (text : jsstring) : regex := ruleTokensFrom false text.

Definition allWhiteSpace (run : jsstring) : Prop :=
  Forall (fun c => isWhiteSpace c = true) run.

(** No whitespace at the head: a run that ends here is maximal. *)
Definition runEnds (r : jsstring) : Prop :=
  match r with
  | [] => True
  | c :: _ => isWhiteSpace c = false
  end.

Section MatchRelations.
Variable toUpperCase : code_unit -> jsstring.
Variable ignoreCase : bool.

(** What a pattern matches, without reference to the order in which the
    matcher tries things. *)
Inductive Matches : regex -> jsstring -> Prop :=
| Matches_nil : Matches [] []
| Matches_one a c r s :
    atomMatches toUpperCase ignoreCase a c = true ->
    Matches r s -> Matches (One a :: r) (c :: s)
| Matches_plus a run r s :
    run <> [] ->
    Forall (fun c => atomMatches toUpperCase ignoreCase a c = true) run ->
    Matches r s -> Matches (Plus a :: r) (run ++ s).

(** Whitespace-tolerant equality of a rule text and a piece of the
    document, in the words of the specification: a maximal run of
    whitespace of the rule text stands against any non-empty run of
    whitespace, any other character against the same character (up to
    case when case is ignored). *)
Inductive Tolerant : jsstring -> jsstring -> Prop :=
| Tolerant_nil : Tolerant [] []
| Tolerant_char c d r s :
    isWhiteSpace c = false ->
    canonicalize toUpperCase ignoreCase c = canonicalize toUpperCase ignoreCase d ->
    Tolerant r s -> Tolerant (c :: r) (d :: s)
| Tolerant_run run1 run2 r s :
    run1 <> [] -> allWhiteSpace run1 -> runEnds r ->
    run2 <> [] -> allWhiteSpace run2 ->
    Tolerant r s -> Tolerant (run1 ++ r) (run2 ++ s).
End MatchRelations.

(** A match of the loop: inside the text, and a match of the pattern at
    its index. *)
Definition properMatch (toUpperCase : code_unit -> jsstring)
    (ignoreCase : bool) (r : regex) (originalText : jsstring)
    (m : nat * nat) : Prop :=
  (fst m + snd m <= List.length originalText)%nat
  /\ matchHere toUpperCase ignoreCase r (skipn (fst m) originalText) = Some (snd m).

(** The source does not go on with a quantifier. *)
Definition noQuantifierAhead (src : jsstring) : Prop :=
  match src with
  | [] => True
  | p :: _ => (p =? PLUS)%N = false
  end.

Definition segmentsText (segments : list Segment) : jsstring :=
  List.concat (List.map text segments).

(** A line in the words of the specification: the first item after its
    indentation, every later item after the separator for the gap between
    its x and the end (x + width) of the item before it. *)
Fixpoint afterFirst (previous : Placed) (items : list Placed) : jsstring :=
  match items with
  | [] => []
  | item :: rest =>
      gapSeparator
        (numSub (p_x item) (numAdd (p_x previous) (p_width previous)))
      ++ p_text item ++ afterFirst item rest
  end.

Definition lineByGaps (items : list Placed) : jsstring :=
  match items with
  | [] => []
  | first :: rest =>
      indentation (p_x first) ++ p_text first ++ afterFirst first rest
  end.

(** [lines.join('\n')]. *)
Fixpoint joinLines (lines : list jsstring) : jsstring :=
  match lines with
  | [] => []
  | [line] => line
  | line :: rest => line ++ LF :: joinLines rest
  end.

(** A rule that [validateHighlightRules] reports nothing about. *)
Definition accepted (rule : RawRule) : bool :=
  negb (textRejected rule) && negb (colorRejected rule)
  && negb (caseSensitiveRejected rule).

(* ================================================================== *)
(** ** The callers of the highlighting engine *)
(* ================================================================== *)

(** The segments that [mergedHighlights.forEach] pushes when it starts
    with [currentIndex] at [cursor]: before each highlight the text not
    yet emitted, if there is any, then the highlight. *)
Fixpoint segmentsFrom (originalText : jsstring) (merged : list Highlight)
    (cursor : Z) : list Segment :=
  match merged with
  | [] => []
  | highlight :: merged' =>
      (if h_start highlight >? cursor then
         [ {| text := substring originalText cursor (h_start highlight);
              highlighted := false; color := None |} ]
       else [])
      ++ {| text := substring originalText (h_start highlight) (h_end highlight);
            highlighted := true; color := Some (h_color highlight) |}
      :: segmentsFrom originalText merged' (h_end highlight)
  end.

(** [currentIndex] after the last highlight. *)
Definition cursorAfter (merged : list Highlight) (cursor : Z) : Z :=
  fold_left (fun _ highlight => h_end highlight) merged cursor.

(** For every character of the segments in order, whether the segment it
    belongs to is highlighted. *)
Definition highlightMask (segments : list Segment) : list bool :=
  flat_map (fun s => repeat (highlighted s) (List.length (text s))) segments.

Definition insideb (p : Z) (h : Highlight) : bool :=
  (h_start h <=? p) && (p <? h_end h).

Definition coversb (l : list Highlight) (p : Z) : bool := existsb (insideb p) l.

(** Whether the positions [from], [from + 1], ..., [from + n - 1] are
    covered by a span of the list. *)
Fixpoint maskFrom (l : list Highlight) (from : Z) (n : nat) : list bool :=
  match n with
  | O => []
  | S n' => coversb l from :: maskFrom l (from + 1) n'
  end.

(** The rule number an error message starts with. *)
Definition errorRule (e : RuleError) : nat :=
  match e with
  | TextRequired n | ColorNotListed n | CaseSensitiveNotBoolean n => n
  end.

(** [handleOptionSelect] of the text display: the segment at
    [segmentIndex], whose text is [originalSentence], is replaced by the
    text of the option chosen.  The position is the sum of the lengths of
    the segments in front of it. *)
Definition positionOfSegment (segments : list Segment) (segmentIndex : nat) : Z :=
  fold_left (fun currentPosition s => currentPosition + strlen (text s))
    (firstn segmentIndex segments) 0.

Definition handleOptionSelect (displayText : jsstring)
    (segments : list Segment) (originalSentence optionText : jsstring)
    (segmentIndex : nat) : jsstring :=
  let currentPosition := positionOfSegment segments segmentIndex in
  let beforeText := substring displayText 0 currentPosition in
  let afterText :=
    substringFrom displayText (currentPosition + strlen originalSentence) in
  beforeText ++ optionText ++ afterText.

(** The entries of the analysis response and what [analyzePolicyText]
    makes of them. *)
Record ResponseItem : Type := mkResponseItem {
  item_sentence : JsValue;
  item_color : JsValue;
  item_riskLevel : JsValue
}.

Record AnalyzedSentence : Type := mkAnalyzedSentence {
  sentence : jsstring;
  sentence_color : jsstring;
  riskLevel : JsValue
}.

(** "Invalid sentence at index i: missing or invalid sentence field" and
    "Invalid color at index i: missing or invalid color field". *)
Inductive ItemError : Type :=
| InvalidSentence (index : nat)
| InvalidColor (index : nat).

(** [item.riskLevel || (item.color === '#e74c3c' ? 'high' : item.color
    === '#f39c12' ? 'medium' : 'favorable')]. *)
Definition riskLevelOf (itemRiskLevel : JsValue) (itemColor : jsstring) : JsValue :=
  if toBoolean itemRiskLevel then itemRiskLevel
  else if jsstring_eqb itemColor (js "#e74c3c") then JsString (js "high")
  else if jsstring_eqb itemColor (js "#f39c12") then JsString (js "medium")
  else JsString (js "favorable").

(** The callback of [sentences.map]: an error for what it throws. *)
Definition normalizeItem (item : ResponseItem) (index : nat)
    : ItemError + AnalyzedSentence :=
  if negb (toBoolean (item_sentence item)) || negb (isString (item_sentence item))
  then inl (InvalidSentence index)
  else if negb (toBoolean (item_color item)) || negb (isString (item_color item))
  then inl (InvalidColor index)
  else
    match item_sentence item, item_color item with
    | JsString s, JsString c =>
        inr {| sentence := trim s; sentence_color := c;
               riskLevel := riskLevelOf (item_riskLevel item) c |}
    | _, _ => inl (InvalidSentence index)
    end.

(** [sentences.map((item, index) => ...)]: the first throw ends it. *)
Fixpoint normalizeFrom (items : list ResponseItem) (index : nat)
    : ItemError + list AnalyzedSentence :=
  match items with
  | [] => inr []
  | item :: rest =>
      match normalizeItem item index with
      | inl e => inl e
      | inr s =>
          match normalizeFrom rest (S index) with
          | inl e => inl e
          | inr ss => inr (s :: ss)
          end
      end
  end.

Definition normalizeSentences (items : list ResponseItem)
    : ItemError + list AnalyzedSentence :=
  normalizeFrom items 0.

(** [App]: a sentence of the analysis becomes a rule that ignores case. *)
Definition sentenceToRule (result : AnalyzedSentence) : HighlightRule :=
  {| rule_text := sentence result; rule_color := sentence_color result;
     caseSensitive := false |}.

(** A text item that the page loop keeps, as it is placed on its line. *)
Definition placedOf (item : TextItem) : list Placed :=
  match item_str item, item_transform item with
  | [], _ => []
  | _, None => []
  | _, Some (x, y) =>
      [ {| p_text := item_str item; p_x := x; p_y := y;
           p_width := item_width item |} ]
  end.

Definition lineKeyOf (p : Placed) : Z := mathRound (p_y p / 2)%Q * 2.

Definition notSpace (c : code_unit) : bool := negb (c =? SPACE)%N.

(** The rule configuration panel.  A rule of its state as
    [validateHighlightRules] sees it. *)
Definition toRawRule (rule : HighlightRule) : RawRule :=
  {| raw_text := JsString (rule_text rule);
     raw_color := JsString (rule_color rule);
     raw_caseSensitive := JsBoolean (caseSensitive rule) |}.

(** What [handleAddRule] does: the error it sets, or the rules it hands
    to [onRulesChange].  [FirstValidationError] carries
    [validation.errors[0]]. *)
Inductive AddRuleOutcome : Type :=
| PleaseEnterText
| FirstValidationError (e : option RuleError)
| RulesChanged (updatedRules : list HighlightRule).

Definition handleAddRule (highlightRules : list HighlightRule)
    (newRule : HighlightRule) : AddRuleOutcome :=
  match trim (rule_text newRule) with
  | [] => PleaseEnterText
  | _ =>
      let updatedRules := highlightRules ++ [newRule] in
      let validation := validateHighlightRules (List.map toRawRule updatedRules) in
      if negb (isValid validation)
      then FirstValidationError (hd_error (errors validation))
      else RulesChanged updatedRules
  end.

(** [list.filter((_, i) => i !== index)], [i] counting from [from]. *)
Fixpoint filterIndexFrom {A} (from index : nat) (l : list A) : list A :=
  match l with
  | [] => []
  | x :: l' =>
      if (from =? index)%nat then filterIndexFrom (S from) index l'
      else x :: filterIndexFrom (S from) index l'
  end.

Definition handleRemoveRule (highlightRules : list HighlightRule)
    (index : nat) : list HighlightRule :=
  filterIndexFrom 0 index highlightRules.

(** [list.map((rule, i) => i === index ? { ...rule, color: newColor } :
    rule)], [i] counting from [from]. *)
Fixpoint recolorFrom (from index : nat) (newColor : jsstring)
    (l : list HighlightRule) : list HighlightRule :=
  match l with
  | [] => []
  | rule :: l' =>
      (if (from =? index)%nat
       then {| rule_text := rule_text rule; rule_color := newColor;
               caseSensitive := caseSensitive rule |}
       else rule)
      :: recolorFrom (S from) index newColor l'
  end.

Definition handleColorChange (highlightRules : list HighlightRule)
    (index : nat) (newColor : jsstring) : list HighlightRule :=
  recolorFrom 0 index newColor highlightRules.

(** A span with at least one position. *)
Definition positive (h : Highlight) : Prop := h_start h < h_end h.

(** A highlighted segment has one of the colours, a plain one none. *)
Definition colourFrom (colours : list jsstring) (s : Segment) : Prop :=
  match color s with
  | Some c => highlighted s = true /\ In c colours
  | None => highlighted s = false
  end.

(** The reply of the language model before [JSON.parse]: trimmed, freed
    of a Markdown code fence when it starts with one, trimmed again. *)
Definition BACKTICK : code_unit := 96%N.

(** [jsonText.startsWith('```')]. *)
Definition startsWithFence (jsonText : jsstring) : bool :=
  match jsonText with
  | a :: b :: c :: _ => ((a =? BACKTICK) && (b =? BACKTICK) && (c =? BACKTICK))%N
  | _ => false
  end.

Section CodeFence.
Variable toUpperCase : code_unit -> jsstring.

(** A character of a pattern with the flag [i] against one of the text. *)
Definition sameIgnoringCase (l c : code_unit) : bool :=
  atomMatches toUpperCase true (Lit l) c.

(** [(?:json)?] at the head of [s]: what is left after it. *)
Definition skipJson (s : jsstring) : jsstring :=
  match s with
  | j :: s1 :: o :: n :: rest =>
      if sameIgnoringCase 106%N j && sameIgnoringCase 115%N s1
         && sameIgnoringCase 111%N o && sameIgnoringCase 110%N n
      then rest else s
  | _ => s
  end.

(** [\n?] at the head of [s]: what is left after it. *)
Definition skipNewline (s : jsstring) : jsstring :=
  match s with
  | c :: rest => if sameIgnoringCase LF c then rest else s
  | [] => []
  end.

(** [s.replace(/^```(?:json)?\n?/i, '')]. *)
Definition dropOpeningFence (s : jsstring) : jsstring :=
  match s with
  | a :: b :: c :: rest =>
      if sameIgnoringCase BACKTICK a && sameIgnoringCase BACKTICK b
         && sameIgnoringCase BACKTICK c
      then skipNewline (skipJson rest)
      else s
  | _ => s
  end.

(** [s.replace(/\n?```$/i, '')]: the pattern can only match the last
    three characters, with the one before them when that is a newline. *)
Definition dropClosingFence (s : jsstring) : jsstring :=
  match rev s with
  | c :: b :: a :: before =>
      if sameIgnoringCase BACKTICK a && sameIgnoringCase BACKTICK b
         && sameIgnoringCase BACKTICK c
      then
        match before with
        | n :: before' =>
            if sameIgnoringCase LF n then rev before' else rev before
        | [] => []
        end
      else s
  | _ => s
  end.

(** The argument of [JSON.parse] in [analyzePolicyText]. *)
Definition textToParse (text : jsstring) : jsstring :=
  let jsonText := trim text in
  let jsonText1 :=
    if startsWithFence jsonText
    then dropClosingFence (dropOpeningFence jsonText)
    else jsonText in
  trim jsonText1.
End CodeFence.

(** Every item of an entry of [lineMap] has the key of the entry. *)
Definition keyed (lineMap : LineMap) : Prop :=
  Forall (fun entry => Forall (fun p => lineKeyOf p = fst entry) (snd entry))
    lineMap.

(** A string that is not empty: what passes [!v || typeof v !== 'string']. *)
Definition truthyString (v : JsValue) : Prop :=
  exists s, v = JsString s /\ s <> [].

(** A rule that the panel can hold: a text that is not blank and one of
    the three colours of its menus. *)
Definition configurable (rule : HighlightRule) : Prop :=
  trim (rule_text rule) <> [] /\ In (rule_color rule) validColors.

Definition validRules (rules : list HighlightRule) : Prop :=
  isValid (validateHighlightRules (List.map toRawRule rules)) = true.

(* ================================================================== *)
(** ** Lists *)
(* ================================================================== *)

Lemma StronglySorted_snoc {A} (R : A -> A -> Prop) l x :
  StronglySorted R l -> Forall (fun a => R a x) l ->
  StronglySorted R (l ++ [x]).
Proof.
  induction l as [|a l IH]; simpl; intros Hs Hf.
  - constructor; constructor.
  - inversion Hs; subst. inversion Hf; subst.
    constructor; [now apply IH|].
    apply Forall_app; split; [assumption|now constructor].
Qed.

Lemma StronglySorted_nth_error {A} (R : A -> A -> Prop) l :
  StronglySorted R l ->
  forall i j a b, (i < j)%nat ->
    nth_error l i = Some a -> nth_error l j = Some b -> R a b.
Proof.
  induction 1 as [|x l Hs IH Hf]; intros i j a b Hij Hi Hj.
  - destruct i; discriminate.
  - destruct j as [|j]; [lia|].
    destruct i as [|i]; simpl in *.
    + injection Hi as <-.
      rewrite Forall_forall in Hf. apply Hf.
      eapply nth_error_In; eassumption.
    + eapply IH; [|eassumption..]. lia.
Qed.

(* ================================================================== *)
(** ** mergeOverlappingHighlights *)
(* ================================================================== *)

(** What the loop keeps true: everything committed ends before [current]
    starts, and nothing still to come starts before [current]. *)
Lemma mergeLoop_disjoint rest :
  forall merged current,
    StronglySorted endsBefore merged ->
    Forall wellFormed merged -> wellFormed current -> Forall wellFormed rest ->
    Forall (fun m => endsBefore m current) merged ->
    startsSorted (current :: rest) ->
    StronglySorted endsBefore (mergeLoop merged current rest)
    /\ Forall wellFormed (mergeLoop merged current rest).
Proof.
  unfold startsSorted, endsBefore, wellFormed.
  induction rest as [|next rest IH]; intros merged current Hm Wm Wc Wr Hb Hs;
    simpl.
  - split.
    + now apply StronglySorted_snoc.
    + apply Forall_app; split; [assumption|now constructor].
  - inversion Hs as [|? ? Hs' Hle]; subst.
    inversion Hs' as [|? ? Hs'' Hle']; subst.
    inversion Hle as [|? ? Hcn Hcr]; subst.
    inversion Wr as [|? ? Wn Wr']; subst.
    destruct (Z.ltb_spec (h_start next) (h_end current)) as [Hov|Hno].
    + destruct (Z.gtb_spec (h_start next) (h_start current)) as [Hgt|Hngt].
      * apply IH; simpl; try assumption; try lia.
        -- apply StronglySorted_snoc; [assumption|].
           eapply Forall_impl; [|exact Hb]. simpl. intros; lia.
        -- apply Forall_app; split; [assumption|]. constructor; simpl; [lia|constructor].
        -- apply Forall_app; split.
           ++ eapply Forall_impl; [|exact Hb]. simpl. intros; lia.
           ++ constructor; simpl; [lia|constructor].
        -- constructor; assumption.
      * apply IH; simpl; try assumption; try lia.
        -- eapply Forall_impl; [|exact Hb]. simpl. intros; lia.
        -- constructor; assumption.
    + apply IH; try assumption.
      * apply StronglySorted_snoc; assumption.
      * apply Forall_app; split; [assumption|now constructor].
      * apply Forall_app; split.
        -- eapply Forall_impl; [|exact Hb]. simpl. intros; lia.
        -- constructor; [lia|constructor].
Qed.

Lemma mergeLoop_within len rest :
  forall merged current,
    Forall (withinText len) merged -> withinText len current ->
    Forall (withinText len) rest ->
    Forall (withinText len) (mergeLoop merged current rest).
Proof.
  unfold withinText.
  induction rest as [|next rest IH]; intros merged current Wm Wc Wr; simpl.
  - apply Forall_app; split; [assumption|now constructor].
  - inversion Wr as [|? ? Wn Wr']; subst.
    destruct (Z.ltb_spec (h_start next) (h_end current)) as [Hov|Hno].
    + apply IH; simpl; try assumption; try lia.
      destruct (Z.gtb_spec (h_start next) (h_start current)); [|assumption].
      apply Forall_app; split; [assumption|].
      constructor; simpl; [lia|constructor].
    + apply IH; try assumption.
      apply Forall_app; split; [assumption|now constructor].
Qed.

Lemma covers_app l1 l2 p : covers (l1 ++ l2) p <-> covers l1 p \/ covers l2 p.
Proof. unfold covers. apply Exists_app. Qed.

Lemma covers_cons h l p : covers (h :: l) p <-> inside p h \/ covers l p.
Proof. unfold covers. apply Exists_cons. Qed.

Lemma covers_nil p : covers [] p <-> False.
Proof. unfold covers. apply Exists_nil. Qed.

Lemma mergeLoop_covers p rest :
  forall merged current,
    startsSorted (current :: rest) ->
    (covers (mergeLoop merged current rest) p
     <-> covers (merged ++ current :: rest) p).
Proof.
  unfold startsSorted.
  induction rest as [|next rest IH]; intros merged current Hs; simpl.
  - reflexivity.
  - inversion Hs as [|? ? Hs' Hle]; subst.
    inversion Hs' as [|? ? Hs'' Hle']; subst.
    inversion Hle as [|? ? Hcn Hcr]; subst.
    destruct (Z.ltb_spec (h_start next) (h_end current)) as [Hov|Hno].
    + rewrite IH by (constructor; assumption).
      destruct (Z.gtb_spec (h_start next) (h_start current)) as [Hgt|Hngt];
        repeat rewrite ?covers_app, ?covers_cons, ?covers_nil;
        unfold inside; simpl; intuition lia.
    + rewrite IH by assumption.
      repeat rewrite ?covers_app, ?covers_cons, ?covers_nil. tauto.
Qed.


Lemma StronglySorted_weaken {A} (R R' : A -> A -> Prop) (P : A -> Prop) l :
  (forall a b, P a -> P b -> R a b -> R' a b) ->
  Forall P l -> StronglySorted R l -> StronglySorted R' l.
Proof.
  intros HR Hp Hs. induction Hs as [|x l Hs IH Hf].
  - constructor.
  - inversion Hp as [|? ? Px Pl]; subst.
    constructor; [now apply IH|].
    rewrite Forall_forall in *. intros b Hb. apply HR; auto.
Qed.

Lemma merge_disjoint highlights :
  startsSorted highlights -> Forall wellFormed highlights ->
  StronglySorted endsBefore (mergeOverlappingHighlights highlights)
  /\ Forall wellFormed (mergeOverlappingHighlights highlights).
Proof.
  destruct highlights as [|first rest]; simpl; intros Hs Hw.
  - split; constructor.
  - inversion Hw; subst.
    apply mergeLoop_disjoint; try assumption; constructor.
Qed.

Lemma merge_within len highlights :
  Forall (withinText len) highlights ->
  Forall (withinText len) (mergeOverlappingHighlights highlights).
Proof.
  destruct highlights as [|first rest]; simpl; intros Hw.
  - constructor.
  - inversion Hw; subst. apply mergeLoop_within; try assumption; constructor.
Qed.

(** C3. For a list of spans sorted by non-decreasing start, each with
    start <= end, the list returned by [mergeOverlappingHighlights] is
    sorted by start and pairwise non-overlapping: for all i < j,
    merged[i].end <= merged[j].start. *)
Theorem merge_sorted_and_non_overlapping (highlights : list Highlight) :
  startsSorted highlights ->
  Forall wellFormed highlights ->
  let merged := mergeOverlappingHighlights highlights in
  startsSorted merged
  /\ forall i j a b, (i < j)%nat ->
       nth_error merged i = Some a -> nth_error merged j = Some b ->
       h_end a <= h_start b.
Proof.
  intros Hs Hw merged.
  destruct (merge_disjoint highlights Hs Hw) as [Hd Hwf].
  split.
  - unfold startsSorted.
    apply StronglySorted_weaken with (R := endsBefore) (P := wellFormed);
      try assumption.
    unfold endsBefore, wellFormed. intros; lia.
  - exact (StronglySorted_nth_error endsBefore merged Hd).
Qed.

Lemma merge_sorted_and_non_overlapping_witness :
  let highlights :=
    [ mkHighlight 0 5 (js "red"); mkHighlight 3 8 (js "green");
      mkHighlight 3 4 (js "yellow"); mkHighlight 10 12 (js "red") ] in
  startsSorted highlights /\ Forall wellFormed highlights
  /\ mergeOverlappingHighlights highlights =
       [ mkHighlight 0 3 (js "red"); mkHighlight 3 8 (js "yellow");
         mkHighlight 10 12 (js "red") ]
  /\ (startsSorted (mergeOverlappingHighlights highlights)
      /\ forall i j a b, (i < j)%nat ->
           nth_error (mergeOverlappingHighlights highlights) i = Some a ->
           nth_error (mergeOverlappingHighlights highlights) j = Some b ->
           h_end a <= h_start b).
Proof.
  intros highlights.
  assert (Hs : startsSorted highlights)
    by (unfold startsSorted, highlights; repeat constructor; simpl; lia).
  assert (Hw : Forall wellFormed highlights)
    by (unfold wellFormed, highlights; repeat constructor; simpl; lia).
  split; [exact Hs|]. split; [exact Hw|]. split; [reflexivity|].
  exact (merge_sorted_and_non_overlapping highlights Hs Hw).
Defined.

(** C10. For a list of spans sorted by non-decreasing start, each with
    start <= end, the positions covered by the output of
    [mergeOverlappingHighlights] are exactly the positions covered by the
    input: no position is added and none is lost. *)
Theorem merge_preserves_coverage (highlights : list Highlight) :
  startsSorted highlights ->
  Forall wellFormed highlights ->
  forall p : Z,
    covers (mergeOverlappingHighlights highlights) p <-> covers highlights p.
Proof.
  intros Hs _ p.
  destruct highlights as [|first rest]; simpl.
  - reflexivity.
  - now rewrite mergeLoop_covers.
Qed.

Lemma merge_preserves_coverage_witness :
  let highlights :=
    [ mkHighlight 0 5 (js "red"); mkHighlight 3 8 (js "green");
      mkHighlight 3 4 (js "yellow"); mkHighlight 10 12 (js "red") ] in
  startsSorted highlights /\ Forall wellFormed highlights
  /\ forall p : Z,
       covers (mergeOverlappingHighlights highlights) p <-> covers highlights p.
Proof.
  intros highlights.
  assert (Hs : startsSorted highlights)
    by (unfold startsSorted, highlights; repeat constructor; simpl; lia).
  assert (Hw : Forall wellFormed highlights)
    by (unfold wellFormed, highlights; repeat constructor; simpl; lia).
  split; [exact Hs|]. split; [exact Hw|].
  exact (merge_preserves_coverage highlights Hs Hw).
Defined.

(* ================================================================== *)
(** ** The matcher: bounds and termination of the scan *)
(* ================================================================== *)

Section MatcherFacts.
Variable toUpperCase : code_unit -> jsstring.
Variable ignoreCase : bool.

Local Abbreviation matchHere' := (matchHere toUpperCase ignoreCase).
Local Abbreviation matchPlus' := (matchPlus toUpperCase ignoreCase).
Local Abbreviation atomMatches' := (atomMatches toUpperCase ignoreCase).

Lemma matchPlus_bounds a k lo :
  (forall s n, k s = Some n -> (lo <= n <= List.length s)%nat) ->
  forall s n, matchPlus' a k s = Some n -> (S lo <= n <= List.length s)%nat.
Proof.
  intros Hk. induction s as [|c s IH]; simpl; intros n H; [discriminate|].
  destruct (atomMatches' a c); [|discriminate].
  destruct (matchPlus' a k s) as [m|] eqn:Em.
  - injection H as <-. specialize (IH m eq_refl). lia.
  - destruct (k s) as [m|] eqn:Ek; [|discriminate].
    injection H as <-. specialize (Hk s m Ek). lia.
Qed.

Lemma matchHere_bounds r :
  forall s n, matchHere' r s = Some n ->
    (List.length r <= n <= List.length s)%nat.
Proof.
  induction r as [|t r IH]; simpl; intros s n H.
  - injection H as <-. lia.
  - destruct t as [a|a].
    + destruct s as [|c s]; [discriminate|].
      destruct (atomMatches' a c); [|discriminate].
      destruct (matchHere' r s) as [m|] eqn:Em; [|discriminate].
      injection H as <-. specialize (IH s m Em). simpl. lia.
    + apply (matchPlus_bounds a _ (List.length r) IH) in H. lia.
Qed.

Lemma searchFrom_bounds r s :
  forall pos i n, searchFrom toUpperCase ignoreCase r s pos = Some (i, n) ->
    (pos <= i)%nat /\ (i + n <= pos + List.length s)%nat
    /\ matchHere' r (skipn (i - pos) s) = Some n.
Proof.
  induction s as [|c s IH]; intros pos i n H; simpl in H.
  - destruct (matchHere' r []) as [m|] eqn:Em; [|discriminate].
    injection H as <- <-. apply matchHere_bounds in Em as Hb.
    rewrite Nat.sub_diag. simpl in *. repeat split; try lia. assumption.
  - destruct (matchHere' r (c :: s)) as [m|] eqn:Em.
    + injection H as <- <-. apply matchHere_bounds in Em as Hb.
      rewrite Nat.sub_diag. simpl in *. repeat split; try lia. assumption.
    + apply IH in H as (H1 & H2 & H3). simpl.
      replace (i - pos)%nat with (S (i - S pos)) by lia.
      simpl. repeat split; try lia. assumption.
Qed.

Lemma exec_bounds r originalText lastIndex i n :
  exec toUpperCase ignoreCase r originalText lastIndex = Some (i, n) ->
  (lastIndex <= i)%nat /\ (i + n <= List.length originalText)%nat
  /\ matchHere' r (skipn i originalText) = Some n.
Proof.
  unfold exec.
  destruct (Nat.ltb_spec (List.length originalText) lastIndex) as [Hlt|Hge];
    [discriminate|].
  intros H. apply searchFrom_bounds in H as (H1 & H2 & H3).
  rewrite length_skipn in H2. rewrite skipn_skipn in H3.
  replace (i - lastIndex + lastIndex)%nat with i in H3 by lia.
  repeat split; try lia. assumption.
Qed.

(** The loop ends: [lastIndex] grows with every call of [exec], and a call
    with [lastIndex] beyond the length fails. *)
Lemma execLoop_terminates r originalText :
  forall fuel lastIndex,
    (lastIndex <= S (List.length originalText))%nat ->
    (S (S (List.length originalText)) <= fuel + lastIndex)%nat ->
    exists ms,
      execLoop toUpperCase fuel ignoreCase r originalText lastIndex = Some ms
      /\ Forall (properMatch toUpperCase ignoreCase r originalText) ms.
Proof.
  induction fuel as [|fuel IH]; intros lastIndex Hle Hfuel; [lia|].
  simpl.
  destruct (exec toUpperCase ignoreCase r originalText lastIndex)
    as [[i n]|] eqn:E.
  - apply exec_bounds in E as (H1 & H2 & H3).
    unfold zeroLength. simpl fst; simpl snd.
    destruct (Nat.eqb_spec n 0) as [Hz|Hnz].
    + destruct (IH (S (i + n))) as (ms & -> & Hms); try lia.
      eexists; split; [reflexivity|]. constructor; [|assumption].
      split; assumption.
    + destruct (IH (i + n)%nat) as (ms & -> & Hms); try lia.
      eexists; split; [reflexivity|]. constructor; [|assumption].
      split; assumption.
  - exists []. split; [reflexivity|constructor].
Qed.

(** Calls that were not needed change nothing: a scan that ends within
    [fuel] calls gives the same matches with any larger allowance. *)
Lemma execLoop_more_fuel r originalText :
  forall fuel extra lastIndex ms,
    execLoop toUpperCase fuel ignoreCase r originalText lastIndex = Some ms ->
    execLoop toUpperCase (fuel + extra) ignoreCase r originalText lastIndex
    = Some ms.
Proof.
  induction fuel as [|fuel IH]; intros extra lastIndex ms H; [discriminate|].
  simpl in *.
  destruct (exec toUpperCase ignoreCase r originalText lastIndex) as [m|];
    [|assumption].
  destruct (execLoop toUpperCase fuel ignoreCase r originalText _)
    as [ms'|] eqn:E; [|discriminate].
  now rewrite (IH extra _ ms' E).
Qed.

End MatcherFacts.

(* ================================================================== *)
(** ** From a rule text to its pattern *)
(* ================================================================== *)

Lemma syntaxChar_cases c :
  isSyntaxChar c = true ->
  In c [46; 42; 43; 63; 94; 36; 123; 125; 40; 41; 124; 91; 93; 92]%N.
Proof.
  unfold isSyntaxChar. rewrite !orb_true_iff, !N.eqb_eq. simpl. intuition auto.
Qed.

Lemma syntaxChar_not_space c : isSyntaxChar c = true -> isWhiteSpace c = false.
Proof.
  intros H. apply syntaxChar_cases in H. simpl in H.
  repeat (destruct H as [<-|H]; [reflexivity|]). contradiction.
Qed.

Lemma syntaxChar_not_s c : isSyntaxChar c = true -> (c =? LOWER_S)%N = false.
Proof.
  intros H. apply syntaxChar_cases in H. simpl in H.
  repeat (destruct H as [<-|H]; [reflexivity|]). contradiction.
Qed.

Lemma plain_not_backslash c :
  isSyntaxChar c = false -> (c =? BACKSLASH)%N = false.
Proof.
  intros H. destruct (N.eqb_spec c BACKSLASH) as [->|]; [discriminate|reflexivity].
Qed.

Lemma plain_not_plus c : isSyntaxChar c = false -> (c =? PLUS)%N = false.
Proof.
  intros H. destruct (N.eqb_spec c PLUS) as [->|]; [discriminate|reflexivity].
Qed.

Lemma parse_plain c rest :
  isSyntaxChar c = false -> noQuantifierAhead rest ->
  parsePattern (c :: rest) = option_map (cons (One (Lit c))) (parsePattern rest).
Proof.
  intros Hc Hq. cbn [parsePattern].
  rewrite (plain_not_backslash c Hc), Hc.
  destruct rest as [|p rest']; [reflexivity|].
  simpl in Hq. rewrite Hq. reflexivity.
Qed.

Lemma parse_escaped d rest :
  isSyntaxChar d = true -> noQuantifierAhead rest ->
  parsePattern (BACKSLASH :: d :: rest)
  = option_map (cons (One (Lit d))) (parsePattern rest).
Proof.
  intros Hd Hq. cbn [parsePattern].
  rewrite N.eqb_refl, (syntaxChar_not_s d Hd), Hd.
  destruct rest as [|p rest']; [reflexivity|].
  simpl in Hq. rewrite Hq. reflexivity.
Qed.

Lemma parse_space_plus rest :
  parsePattern (BACKSLASH :: LOWER_S :: PLUS :: rest)
  = option_map (cons (Plus Space)) (parsePattern rest).
Proof. reflexivity. Qed.

Lemma patternSource_noQuantifierAhead text :
  forall inRun, noQuantifierAhead (replaceRuns inRun (escapeRegExp text)).
Proof.
  induction text as [|c r IH]; intros inRun; simpl; [exact I|].
  destruct (isSyntaxChar c) eqn:Hc.
  - reflexivity.
  - cbn [replaceRuns]. destruct (isWhiteSpace c).
    + destruct inRun; [apply IH|reflexivity].
    + simpl. now apply plain_not_plus.
Qed.

(** The pattern source built by the two [replace] calls always reads as
    the pattern of the specification. *)
Lemma parse_patternSource text :
  forall inRun,
    parsePattern (replaceRuns inRun (escapeRegExp text))
    = Some (ruleTokensFrom inRun text).
Proof.
  induction text as [|c r IH]; intros inRun; [reflexivity|].
  cbn [escapeRegExp ruleTokensFrom].
  destruct (isSyntaxChar c) eqn:Hc.
  - rewrite (syntaxChar_not_space c Hc).
    change (replaceRuns inRun (BACKSLASH :: c :: escapeRegExp r))
      with (BACKSLASH :: replaceRuns false (c :: escapeRegExp r)).
    cbn [replaceRuns]. rewrite (syntaxChar_not_space c Hc).
    rewrite parse_escaped;
      [|assumption|apply patternSource_noQuantifierAhead].
    now rewrite IH.
  - cbn [replaceRuns]. destruct (isWhiteSpace c) eqn:Hw.
    + destruct inRun; [apply IH|].
      rewrite parse_space_plus. now rewrite IH.
    + rewrite parse_plain;
        [|assumption|apply patternSource_noQuantifierAhead].
      now rewrite IH.
Qed.

Lemma parsePattern_patternSource text :
  parsePattern (patternSource text) = Some (ruleTokens text).
Proof. apply parse_patternSource. Qed.

(* ================================================================== *)
(** ** Collecting and sorting the highlights *)
(* ================================================================== *)

Lemma sortInsert_Forall {A} (leb : A -> A -> bool) (P : A -> Prop) x l :
  P x -> Forall P l -> Forall P (sortInsert leb x l).
Proof.
  intros Hx. induction 1 as [|y l Hy Hl IH]; simpl.
  - now constructor.
  - destruct (leb x y); repeat constructor; assumption.
Qed.

Lemma stableSort_Forall {A} (leb : A -> A -> bool) (P : A -> Prop) l :
  Forall P l -> Forall P (stableSort leb l).
Proof.
  induction 1; simpl; [constructor|now apply sortInsert_Forall].
Qed.

Lemma sortByStart_sorted highlights : startsSorted (sortByStart highlights).
Proof.
  unfold startsSorted, sortByStart.
  induction highlights as [|x l IH]; simpl; [constructor|].
  induction IH as [|y l' Hs IH' Hf]; simpl.
  - repeat constructor.
  - destruct (Z.leb_spec (h_start x) (h_start y)) as [Hle|Hgt].
    + constructor; [now constructor|].
      constructor; [assumption|].
      eapply Forall_impl; [|exact Hf]. simpl; intros; lia.
    + constructor; [assumption|].
      apply sortInsert_Forall; [lia|assumption].
Qed.

Lemma properMatch_withinText toUpperCase rule r originalText m :
  properMatch toUpperCase (negb (caseSensitive rule)) r originalText m ->
  withinText (strlen originalText) (toHighlight rule m)
  /\ wellFormed (toHighlight rule m).
Proof.
  unfold properMatch, withinText, wellFormed, toHighlight, strlen; simpl.
  intros [H _]. lia.
Qed.

Lemma ruleMatches_total toUpperCase originalText rule :
  exists ms,
    ruleMatches toUpperCase originalText rule = Some ms
    /\ Forall (properMatch toUpperCase (negb (caseSensitive rule))
                 (ruleTokens (rule_text rule)) originalText) ms.
Proof.
  unfold ruleMatches. rewrite parsePattern_patternSource.
  apply execLoop_terminates; unfold enoughFuel; lia.
Qed.

Lemma ruleHighlights_total toUpperCase originalText rule :
  exists hs,
    ruleHighlights toUpperCase originalText rule = Some hs
    /\ Forall (withinText (strlen originalText)) hs
    /\ Forall wellFormed hs.
Proof.
  unfold ruleHighlights.
  destruct (ruleMatches_total toUpperCase originalText rule) as (ms & -> & Hms).
  eexists; split; [reflexivity|].
  split; apply Forall_map; eapply Forall_impl; try exact Hms;
    intros m Hm; eapply properMatch_withinText; eassumption.
Qed.

Lemma collectHighlights_total toUpperCase originalText rules :
  forall highlights,
    Forall (withinText (strlen originalText)) highlights ->
    Forall wellFormed highlights ->
    exists hs,
      collectHighlights toUpperCase originalText rules highlights = Some hs
      /\ Forall (withinText (strlen originalText)) hs
      /\ Forall wellFormed hs.
Proof.
  induction rules as [|rule rules IH]; intros highlights Hw Hf; simpl.
  - eauto.
  - destruct (ruleHighlights_total toUpperCase originalText rule)
      as (hs & -> & Hw' & Hf').
    apply IH; apply Forall_app; split; assumption.
Qed.

(* ================================================================== *)
(** ** Cutting the text into segments *)
(* ================================================================== *)

Lemma firstn_then_firstn {A} (l : list A) :
  forall a n, firstn a l ++ firstn n (skipn a l) = firstn (a + n) l.
Proof.
  induction l as [|x l IH]; intros a n.
  - now rewrite skipn_nil, !firstn_nil.
  - destruct a; simpl; [reflexivity|]. now rewrite IH.
Qed.

Lemma substring_extends originalText a b :
  0 <= a <= b -> b <= strlen originalText ->
  firstn (Z.to_nat a) originalText ++ substring originalText a b
  = firstn (Z.to_nat b) originalText.
Proof.
  intros Hab Hb. unfold substring.
  assert (clamp (strlen originalText) a = a) as -> by (unfold clamp; lia).
  assert (clamp (strlen originalText) b = b) as -> by (unfold clamp; lia).
  rewrite Z.min_l, Z.max_r by lia.
  rewrite firstn_then_firstn. f_equal. lia.
Qed.

Lemma substringFrom_rest originalText a :
  0 <= a <= strlen originalText ->
  firstn (Z.to_nat a) originalText ++ substringFrom originalText a
  = originalText.
Proof.
  intros Ha. unfold substringFrom.
  rewrite substring_extends by lia.
  unfold strlen. rewrite Nat2Z.id. apply firstn_all.
Qed.

Lemma segmentsText_snoc segments s :
  segmentsText (segments ++ [s]) = segmentsText segments ++ text s.
Proof.
  unfold segmentsText. rewrite map_app, concat_app. simpl.
  now rewrite app_nil_r.
Qed.

(** What [mergedHighlights.forEach] keeps true: the segments pushed so
    far spell the text up to [currentIndex]. *)
Lemma segmentStep_invariant originalText merged :
  forall segments currentIndex,
    0 <= currentIndex <= strlen originalText ->
    segmentsText segments = firstn (Z.to_nat currentIndex) originalText ->
    StronglySorted endsBefore merged ->
    Forall wellFormed merged ->
    Forall (withinText (strlen originalText)) merged ->
    Forall (fun h => currentIndex <= h_start h) merged ->
    let st := fold_left (segmentStep originalText) merged
                (segments, currentIndex) in
    0 <= snd st <= strlen originalText
    /\ segmentsText (fst st) = firstn (Z.to_nat (snd st)) originalText.
Proof.
  induction merged as [|h merged IH];
    intros segments currentIndex Hc Ht Hs Hw Hin Hge; simpl.
  - split; assumption.
  - inversion Hs as [|? ? Hs' Hd]; subst.
    inversion Hw as [|? ? Wh Hw']; subst.
    inversion Hin as [|? ? [Ih1 Ih2] Hin']; subst.
    inversion Hge as [|? ? Gh Hge']; subst.
    unfold wellFormed in Wh.
    apply IH; try assumption.
    + simpl. lia.
    + rewrite segmentsText_snoc. simpl.
      destruct (Z.gtb_spec (h_start h) currentIndex) as [Hgt|Hngt].
      * rewrite segmentsText_snoc, Ht. simpl.
        rewrite substring_extends by lia.
        apply substring_extends; lia.
      * assert (h_start h = currentIndex) as Heq by lia.
        rewrite Ht, <- Heq. apply substring_extends; lia.
Qed.

Lemma buildSegments_lossless originalText merged :
  StronglySorted endsBefore merged ->
  Forall wellFormed merged ->
  Forall (withinText (strlen originalText)) merged ->
  segmentsText (buildSegments originalText merged) = originalText.
Proof.
  intros Hs Hw Hin. unfold buildSegments.
  pose proof (segmentStep_invariant originalText merged [] 0) as Hinv.
  destruct (fold_left (segmentStep originalText) merged ([], 0))
    as [segments currentIndex].
  simpl in Hinv.
  destruct Hinv as [Hc Ht]; try assumption.
  - unfold strlen; lia.
  - reflexivity.
  - eapply Forall_impl; [|exact Hin]. unfold withinText. intros; lia.
  - assert (Hall : segmentsText
             (if currentIndex <? strlen originalText
              then segments ++
                   [ {| text := substringFrom originalText currentIndex;
                        highlighted := false; color := None |} ]
              else segments) = originalText).
    { destruct (Z.ltb_spec currentIndex (strlen originalText)) as [Hlt|Hge].
      - rewrite segmentsText_snoc, Ht. simpl.
        apply substringFrom_rest; lia.
      - rewrite Ht. assert (currentIndex = strlen originalText) as -> by lia.
        unfold strlen. rewrite Nat2Z.id. apply firstn_all. }
    destruct (if currentIndex <? strlen originalText then _ else _)
      as [|s l] eqn:E.
    + unfold segmentsText in *. simpl in *. now rewrite app_nil_r.
    + exact Hall.
Qed.

(* ================================================================== *)
(** ** createHighlightedSegments *)
(* ================================================================== *)

(** The function always returns: every pattern it builds is read, and
    every scan ends within the calls allowed. *)
Lemma createHighlightedSegments_total toUpperCase originalText highlightRules :
  exists segments,
    createHighlightedSegments toUpperCase originalText highlightRules
    = Some segments
    /\ segmentsText segments = originalText.
Proof.
  destruct highlightRules as [[|rule rules]|].
  - eexists; split; [reflexivity|].
    unfold segmentsText; simpl. apply app_nil_r.
  - unfold createHighlightedSegments.
    destruct (collectHighlights_total toUpperCase originalText (rule :: rules) [])
      as (hs & -> & Hin & Hw); try constructor.
    eexists; split; [reflexivity|].
    destruct (merge_disjoint (sortByStart hs)) as [Hd Hwf].
    + apply sortByStart_sorted.
    + now apply stableSort_Forall.
    + apply buildSegments_lossless; try assumption.
      apply merge_within. now apply stableSort_Forall.
  - eexists; split; [reflexivity|].
    unfold segmentsText; simpl. apply app_nil_r.
Qed.

(** C1. Lossless partition: for every document and every list of rules
    (also none at all), [createHighlightedSegments] returns, and the text
    fields of the segments it returns, concatenated in order, are exactly
    the document. *)
Theorem segments_concatenate_to_document
    (toUpperCase : code_unit -> jsstring) (originalText : jsstring)
    (highlightRules : option (list HighlightRule)) :
  exists segments,
    createHighlightedSegments toUpperCase originalText highlightRules
    = Some segments
    /\ List.concat (List.map text segments) = originalText.
Proof.
  exact (createHighlightedSegments_total toUpperCase originalText highlightRules).
Qed.

Lemma collectHighlights_no_match toUpperCase originalText rules :
  Forall (fun rule => ruleHighlights toUpperCase originalText rule = Some [])
    rules ->
  forall highlights,
    collectHighlights toUpperCase originalText rules highlights
    = Some highlights.
Proof.
  induction 1 as [|rule rules Hr Hrs IH]; intros highlights; simpl.
  - reflexivity.
  - rewrite Hr, app_nil_r. apply IH.
Qed.

Lemma substringFrom_zero originalText :
  substringFrom originalText 0 = originalText.
Proof.
  rewrite <- (substringFrom_rest originalText 0) at 2.
  - reflexivity.
  - unfold strlen; lia.
Qed.

Lemma buildSegments_nil originalText :
  buildSegments originalText [] = [plainSegment originalText].
Proof.
  unfold buildSegments; simpl.
  destruct (Z.ltb_spec 0 (strlen originalText)); simpl.
  - now rewrite substringFrom_zero.
  - reflexivity.
Qed.

(** C7. Degenerate segmentation: when the rule list is missing or empty,
    or when no rule produces a match, [createHighlightedSegments] returns
    exactly one segment: the whole document, not highlighted, with no
    colour.  This holds for the empty document too, whose one segment is
    empty. *)
Theorem no_highlight_gives_one_plain_segment
    (toUpperCase : code_unit -> jsstring) (originalText : jsstring)
    (highlightRules : option (list HighlightRule)) :
  (highlightRules = None
   \/ highlightRules = Some []
   \/ exists rules,
        highlightRules = Some rules
        /\ Forall (fun rule =>
                     ruleHighlights toUpperCase originalText rule = Some [])
             rules) ->
  createHighlightedSegments toUpperCase originalText highlightRules
  = Some [ {| text := originalText; highlighted := false; color := None |} ].
Proof.
  intros [-> | [-> | (rules & -> & Hnone)]]; try reflexivity.
  destruct rules as [|rule rules]; [reflexivity|].
  unfold createHighlightedSegments.
  rewrite (collectHighlights_no_match _ _ _ Hnone). simpl.
  now rewrite buildSegments_nil.
Qed.

Lemma no_highlight_gives_one_plain_segment_witness :
  let rules := [ mkRule (js "x y") (js "red") false;
                 mkRule (js "B") (js "green") true ] in
  Forall (fun rule => ruleHighlights latinUpperCase (js "abc") rule = Some [])
    rules
  /\ createHighlightedSegments latinUpperCase (js "abc") (Some rules)
     = Some [ {| text := js "abc"; highlighted := false; color := None |} ]
  /\ createHighlightedSegments latinUpperCase [] (Some rules)
     = Some [ {| text := []; highlighted := false; color := None |} ].
Proof.
  intros rules.
  assert (H1 : Forall (fun rule =>
                 ruleHighlights latinUpperCase (js "abc") rule = Some []) rules)
    by (repeat constructor).
  assert (H2 : Forall (fun rule =>
                 ruleHighlights latinUpperCase [] rule = Some []) rules)
    by (repeat constructor).
  split; [exact H1|]. split.
  - apply (no_highlight_gives_one_plain_segment latinUpperCase (js "abc")).
    right; right. exists rules. split; [reflexivity|exact H1].
  - apply (no_highlight_gives_one_plain_segment latinUpperCase []).
    right; right. exists rules. split; [reflexivity|exact H2].
Defined.

(* ================================================================== *)
(** ** Zero-length matches *)
(* ================================================================== *)

Lemma trim_nonempty text : trim text <> [] -> text <> [].
Proof. intros H ->. now apply H. Qed.

Lemma ruleTokens_length text : text <> [] -> (1 <= List.length (ruleTokens text))%nat.
Proof.
  destruct text as [|c r]; [congruence|]. intros _.
  unfold ruleTokens. simpl. destruct (isWhiteSpace c); simpl; lia.
Qed.

(** C9. For a rule whose text is not empty after trimming, the pattern
    built from it cannot match the empty string; the scan of any document
    ends, every match it finds has a positive length, so the branch that
    moves [lastIndex] on after a zero-length match is never taken, and
    every span pushed has start < end. *)
Theorem nonblank_rule_has_no_zero_length_match
    (toUpperCase : code_unit -> jsstring) (originalText : jsstring)
    (rule : HighlightRule) :
  trim (rule_text rule) <> [] ->
  exists r ms,
    parsePattern (patternSource (rule_text rule)) = Some r
    /\ (forall s,
          matchHere toUpperCase (negb (caseSensitive rule)) r s <> Some 0%nat)
    /\ ruleMatches toUpperCase originalText rule = Some ms
    /\ Forall (fun m => zeroLength m = false) ms
    /\ ruleHighlights toUpperCase originalText rule
       = Some (List.map (toHighlight rule) ms)
    /\ Forall (fun h => h_start h < h_end h) (List.map (toHighlight rule) ms).
Proof.
  intros Htrim. apply trim_nonempty, ruleTokens_length in Htrim.
  destruct (ruleMatches_total toUpperCase originalText rule) as (ms & Hms & Hp).
  exists (ruleTokens (rule_text rule)), ms.
  assert (Hpos : Forall (fun m => (1 <= snd m)%nat) ms).
  { eapply Forall_impl; [|exact Hp]. intros m [_ Hm].
    apply matchHere_bounds in Hm. lia. }
  split; [apply parsePattern_patternSource|].
  split.
  { intros s Hs. apply matchHere_bounds in Hs. lia. }
  split; [exact Hms|].
  split.
  { eapply Forall_impl; [|exact Hpos]. intros m Hm. unfold zeroLength.
    apply Nat.eqb_neq. cbv beta in Hm. lia. }
  split.
  { unfold ruleHighlights. now rewrite Hms. }
  apply Forall_map. eapply Forall_impl; [|exact Hpos].
  intros m Hm. unfold toHighlight; simpl. cbv beta in Hm. lia.
Qed.

Lemma nonblank_rule_has_no_zero_length_match_witness :
  let rule := mkRule (js " ab ") (js "red") false in
  trim (rule_text rule) <> []
  /\ ruleMatches latinUpperCase (js "x ab  AB aB ") rule
     = Some [(1, 5); (8, 4)]%nat
  /\ exists r ms,
       parsePattern (patternSource (rule_text rule)) = Some r
       /\ (forall s,
             matchHere latinUpperCase (negb (caseSensitive rule)) r s
             <> Some 0%nat)
       /\ ruleMatches latinUpperCase (js "x ab  AB aB ") rule = Some ms
       /\ Forall (fun m => zeroLength m = false) ms
       /\ ruleHighlights latinUpperCase (js "x ab  AB aB ") rule
          = Some (List.map (toHighlight rule) ms)
       /\ Forall (fun h => h_start h < h_end h)
            (List.map (toHighlight rule) ms).
Proof.
  intros rule.
  assert (H : trim (rule_text rule) <> []) by (vm_compute; discriminate).
  split; [exact H|]. split; [reflexivity|].
  exact (nonblank_rule_has_no_zero_length_match latinUpperCase
           (js "x ab  AB aB ") rule H).
Defined.

(* ================================================================== *)
(** ** What the pattern of a rule matches *)
(* ================================================================== *)

Section Tolerance.
Variable toUpperCase : code_unit -> jsstring.
Variable ignoreCase : bool.

Local Abbreviation matchHere' := (matchHere toUpperCase ignoreCase).
Local Abbreviation matchPlus' := (matchPlus toUpperCase ignoreCase).
Local Abbreviation atomMatches' := (atomMatches toUpperCase ignoreCase).
Local Abbreviation Matches' := (Matches toUpperCase ignoreCase).
Local Abbreviation Tolerant' := (Tolerant toUpperCase ignoreCase).

Lemma Matches_plus_cons a c r m :
  atomMatches' a c = true ->
  Matches' (Plus a :: r) m -> Matches' (Plus a :: r) (c :: m).
Proof.
  intros Hc Hm. inversion Hm as [| |? run ? s Hne Hall Hr]; subst.
  change (c :: run ++ s) with ((c :: run) ++ s).
  constructor; [discriminate|now constructor|assumption].
Qed.

(** Whatever the matcher returns is a match. *)
Lemma matchHere_sound r :
  forall s n, matchHere' r s = Some n -> Matches' r (firstn n s).
Proof.
  induction r as [|t r IH]; simpl; intros s n H.
  - injection H as <-. constructor.
  - destruct t as [a|a].
    + destruct s as [|c s]; [discriminate|].
      destruct (atomMatches' a c) eqn:Hc; [|discriminate].
      destruct (matchHere' r s) as [m|] eqn:Em; [|discriminate].
      injection H as <-. simpl. constructor; [assumption|now apply IH].
    + revert n H. induction s as [|c s IHs]; simpl; intros n H; [discriminate|].
      destruct (atomMatches' a c) eqn:Hc; [|discriminate].
      destruct (matchPlus' a (matchHere' r) s) as [m|] eqn:Em.
      * injection H as <-. simpl.
        apply Matches_plus_cons; [assumption|now apply IHs].
      * destruct (matchHere' r s) as [m|] eqn:Ek; [|discriminate].
        injection H as <-. simpl.
        change (c :: firstn m s) with ([c] ++ firstn m s).
        constructor; [discriminate|now repeat constructor|now apply IH].
Qed.

(** Wherever there is a match, the matcher finds one. *)
Lemma matchHere_complete r m :
  Matches' r m -> forall rest, exists n, matchHere' r (m ++ rest) = Some n.
Proof.
  induction 1 as [|a c r s Hc Hr IH|a run r s Hne Hall Hr IH]; intros rest.
  - exists 0%nat. reflexivity.
  - simpl. rewrite Hc. destruct (IH rest) as [n ->]. eexists; reflexivity.
  - simpl. rewrite <- app_assoc.
    induction Hall as [|c run Hc Hall IHrun]; [congruence|].
    simpl. rewrite Hc.
    destruct (matchPlus' a (matchHere' r) (run ++ s ++ rest)) as [n|] eqn:Em.
    + eexists; reflexivity.
    + destruct run as [|c' run'].
      * simpl. destruct (IH rest) as [n ->]. eexists; reflexivity.
      * destruct IHrun as [n Hn]; [discriminate|]. congruence.
Qed.

Lemma ruleTokensFrom_skip run r :
  allWhiteSpace run -> ruleTokensFrom true (run ++ r) = ruleTokensFrom true r.
Proof.
  induction 1 as [|c run Hc Hrun IH]; simpl; [reflexivity|].
  now rewrite Hc.
Qed.

Lemma ruleTokensFrom_runEnds r :
  runEnds r -> ruleTokensFrom true r = ruleTokensFrom false r.
Proof.
  destruct r as [|c r]; simpl; [reflexivity|]. now intros ->.
Qed.

Lemma ruleTokens_run c run r :
  isWhiteSpace c = true -> allWhiteSpace run -> runEnds r ->
  ruleTokens (c :: run ++ r) = Plus Space :: ruleTokens r.
Proof.
  intros Hc Hrun Hr. unfold ruleTokens. simpl. rewrite Hc.
  now rewrite ruleTokensFrom_skip, ruleTokensFrom_runEnds.
Qed.

Lemma ruleTokens_char c r :
  isWhiteSpace c = false -> ruleTokens (c :: r) = One (Lit c) :: ruleTokens r.
Proof. intros Hc. unfold ruleTokens. simpl. now rewrite Hc. Qed.

Lemma Tolerant_Matches text m :
  Tolerant' text m -> Matches' (ruleTokens text) m.
Proof.
  induction 1 as [|c d r s Hc Heq Hr IH|run1 run2 r s Hne1 Hw1 He Hne2 Hw2 Hr IH].
  - constructor.
  - rewrite ruleTokens_char by assumption.
    constructor; [|assumption]. simpl. now apply N.eqb_eq.
  - destruct run1 as [|c run1]; [congruence|].
    inversion Hw1; subst. simpl.
    rewrite ruleTokens_run by assumption.
    constructor; assumption.
Qed.

(** A text starts with a run of whitespace, possibly empty, that ends
    before a character which is not whitespace or at the end. *)
Lemma leading_run text :
  exists run r, text = run ++ r /\ allWhiteSpace run /\ runEnds r.
Proof.
  induction text as [|c text (run & r & -> & Hrun & Hr)].
  - exists [], []. repeat split; constructor.
  - destruct (isWhiteSpace c) eqn:Hc.
    + exists (c :: run), r. repeat split; [now constructor|assumption].
    + exists [], (c :: run ++ r). repeat split; [constructor|assumption].
Qed.

Lemma Matches_Tolerant_bounded k :
  forall text m, (List.length text <= k)%nat ->
    Matches' (ruleTokens text) m -> Tolerant' text m.
Proof.
  induction k as [|k IH]; intros text m Hlen Hm.
  - destruct text; [|simpl in Hlen; lia].
    inversion Hm; subst. constructor.
  - destruct text as [|c text].
    + inversion Hm; subst. constructor.
    + destruct (isWhiteSpace c) eqn:Hc.
      * destruct (leading_run text) as (run & r & -> & Hrun & Hr).
        rewrite ruleTokens_run in Hm by assumption.
        inversion Hm as [| |? run2 ? s Hne Hall Hrest]; subst.
        change (c :: run ++ r) with ((c :: run) ++ r).
        constructor; try assumption; try discriminate.
        -- now constructor.
        -- apply IH; [|assumption].
           simpl in Hlen. rewrite length_app in Hlen. lia.
      * rewrite ruleTokens_char in Hm by assumption.
        inversion Hm as [|? d ? s Hd Hrest|]; subst.
        constructor; [assumption| |].
        -- simpl in Hd. now apply N.eqb_eq.
        -- apply IH; [simpl in Hlen; lia|assumption].
Qed.

Lemma Matches_Tolerant text m :
  Matches' (ruleTokens text) m -> Tolerant' text m.
Proof. now apply (Matches_Tolerant_bounded (List.length text)). Qed.

Lemma searchFrom_complete r s :
  forall i pos n, matchHere' r (skipn i s) = Some n -> (i <= List.length s)%nat ->
    exists found, searchFrom toUpperCase ignoreCase r s pos = Some found.
Proof.
  induction s as [|c s IH]; intros i pos n Hm Hi.
  - rewrite skipn_nil in Hm. simpl. rewrite Hm. eexists; reflexivity.
  - simpl. destruct (matchHere' r (c :: s)) as [k|] eqn:Ek.
    + eexists; reflexivity.
    + destruct i as [|i]; [simpl in Hm; congruence|].
      simpl in Hm, Hi. apply (IH i (S pos) n Hm). lia.
Qed.

End Tolerance.

Lemma execLoop_nil toUpperCase fuel ignoreCase r originalText lastIndex :
  execLoop toUpperCase (S fuel) ignoreCase r originalText lastIndex = Some [] ->
  exec toUpperCase ignoreCase r originalText lastIndex = None.
Proof.
  simpl. destruct (exec toUpperCase ignoreCase r originalText lastIndex);
    [|reflexivity].
  destruct (execLoop _ _ _ _ _ _); discriminate.
Qed.

(** A document that contains a piece the rule text stands for has at
    least one match. *)
Lemma ruleMatches_finds toUpperCase rule before piece after :
  Tolerant toUpperCase (negb (caseSensitive rule)) (rule_text rule) piece ->
  exists m ms,
    ruleMatches toUpperCase (before ++ piece ++ after) rule = Some (m :: ms).
Proof.
  intros Ht.
  destruct (ruleMatches_total toUpperCase (before ++ piece ++ after) rule)
    as (ms & Hms & _).
  destruct ms as [|m ms]; [exfalso|eauto].
  unfold ruleMatches in Hms. rewrite parsePattern_patternSource in Hms.
  apply execLoop_nil in Hms. unfold exec in Hms. simpl in Hms.
  apply Tolerant_Matches in Ht.
  destruct (matchHere_complete _ _ _ _ Ht after) as [n Hn].
  destruct (searchFrom_complete toUpperCase (negb (caseSensitive rule))
              (ruleTokens (rule_text rule)) (before ++ piece ++ after)
              (List.length before) 0%nat n) as [found Hfound].
  - now rewrite skipn_app, skipn_all, Nat.sub_diag.
  - rewrite length_app. lia.
  - congruence.
Qed.

Lemma canonicalize_eqb_refl toUpperCase ignoreCase c :
  (canonicalize toUpperCase ignoreCase c
   =? canonicalize toUpperCase ignoreCase c)%N = true.
Proof. apply N.eqb_refl. Qed.

(** C6. Whitespace-tolerant matching.  The pattern built from a rule text
    is always read, and what it matches at a position of the document is
    exactly a piece in which every maximal run of whitespace of the rule
    text is answered by some non-empty run of whitespace (newlines
    included) and every other character by itself, up to case unless the
    rule is case sensitive; a document that contains such a piece has a
    match.  In particular the rule text "A  B" matches the documents
    "A\nB" and "A   B" entirely, whatever the case setting. *)
Theorem whitespace_tolerant_matching
    (toUpperCase : code_unit -> jsstring) (rule : HighlightRule) :
  let ignoreCase := negb (caseSensitive rule) in
  (exists r,
     parsePattern (patternSource (rule_text rule)) = Some r
     /\ (forall s n,
           matchHere toUpperCase ignoreCase r s = Some n ->
           Tolerant toUpperCase ignoreCase (rule_text rule) (firstn n s))
     /\ (forall piece rest,
           Tolerant toUpperCase ignoreCase (rule_text rule) piece ->
           exists n, matchHere toUpperCase ignoreCase r (piece ++ rest) = Some n))
  /\ (forall before piece after,
        Tolerant toUpperCase ignoreCase (rule_text rule) piece ->
        exists m ms,
          ruleMatches toUpperCase (before ++ piece ++ after) rule
          = Some (m :: ms))
  /\ (forall c sensitive,
        ruleHighlights toUpperCase (js "A" ++ [LF] ++ js "B")
          (mkRule (js "A  B") c sensitive)
        = Some [ {| h_start := 0; h_end := 3; h_color := c |} ]
        /\ ruleHighlights toUpperCase (js "A   B")
             (mkRule (js "A  B") c sensitive)
           = Some [ {| h_start := 0; h_end := 5; h_color := c |} ]).
Proof.
  intros ignoreCase. split; [|split].
  - exists (ruleTokens (rule_text rule)).
    split; [apply parsePattern_patternSource|]. split.
    + intros s n H. apply Matches_Tolerant. now apply matchHere_sound.
    + intros piece rest H. apply matchHere_complete. now apply Tolerant_Matches.
  - intros before piece after H. now apply ruleMatches_finds.
  - intros c sensitive.
    unfold ruleHighlights, ruleMatches.
    rewrite !parsePattern_patternSource.
    split; cbn; rewrite ?canonicalize_eqb_refl; cbn;
      rewrite ?canonicalize_eqb_refl; reflexivity.
Qed.

Lemma whitespace_tolerant_matching_witness :
  let rule := mkRule (js "a  b") (js "red") false in
  let piece := (js "A" ++ [LF; SPACE; LF] ++ js "B")%list in
  Tolerant latinUpperCase true (rule_text rule) piece
  /\ (exists n,
        matchHere latinUpperCase true (ruleTokens (rule_text rule))
          (piece ++ js " and more") = Some n)
  /\ exists m ms,
       ruleMatches latinUpperCase (js "see " ++ piece ++ js " and more") rule
       = Some (m :: ms).
Proof.
  intros rule piece.
  assert (Ht : Tolerant latinUpperCase true (rule_text rule) piece).
  { apply Tolerant_char; [reflexivity|reflexivity|].
    apply (Tolerant_run latinUpperCase true [SPACE; SPACE] [LF; SPACE; LF]
             (js "b") (js "B")); try discriminate;
      try (repeat constructor). }
  split; [exact Ht|]. split.
  - apply matchHere_complete. apply Tolerant_Matches. exact Ht.
  - exact (proj1 (proj2 (whitespace_tolerant_matching latinUpperCase rule))
             (js "see ") piece (js " and more") Ht).
Defined.

(** Case settings: a case-sensitive rule does not match text in another
    case, a rule that ignores case does. *)
Example case_sensitive_rule :
  ruleHighlights latinUpperCase (js "an exclusion")
    (mkRule (js "Exclusion") (js "red") true) = Some []
  /\ ruleHighlights latinUpperCase (js "an exclusion")
       (mkRule (js "Exclusion") (js "red") false)
     = Some [ {| h_start := 3; h_end := 12; h_color := js "red" |} ].
Proof. split; reflexivity. Qed.

(* ================================================================== *)
(** ** Precedence among overlapping rules *)
(* ================================================================== *)

(** What the merge does with two overlapping spans in sorted order: the
    overlap, and all that follows up to the later of the two ends, takes
    the colour of the second one. *)
Lemma merge_two_overlapping a b :
  h_start a <= h_start b < h_end a ->
  mergeOverlappingHighlights [a; b]
  = (if h_start b >? h_start a
     then [ {| h_start := h_start a; h_end := h_start b; h_color := h_color a |} ]
     else [])
    ++ [ {| h_start := h_start b; h_end := Z.max (h_end a) (h_end b);
            h_color := h_color b |} ].
Proof.
  intros [H1 H2]. simpl.
  destruct (Z.ltb_spec (h_start b) (h_end a)); [|lia].
  destruct (h_start b >? h_start a); reflexivity.
Qed.

(** C2. Precedence, where the code departs from its own comments
    ("later rules take precedence").  Two rules, red "bc" first and
    green "ab" second, on the document "abcd": the spans overlap on "b".
    The rule later in the input is the green one, but the sort by start
    puts its span first and the merge gives the overlap to the span that
    starts later: "b" comes out red. *)
Theorem overlap_takes_color_of_later_start :
  let rules := [ mkRule (js "bc") (js "red") false;
                 mkRule (js "ab") (js "green") false ] in
  collectHighlights latinUpperCase (js "abcd") rules []
  = Some [ {| h_start := 1; h_end := 3; h_color := js "red" |};
           {| h_start := 0; h_end := 2; h_color := js "green" |} ]
  /\ createHighlightedSegments latinUpperCase (js "abcd") (Some rules)
     = Some [ {| text := js "a"; highlighted := true; color := Some (js "green") |};
              {| text := js "bc"; highlighted := true; color := Some (js "red") |};
              {| text := js "d"; highlighted := false; color := None |} ].
Proof. split; reflexivity. Qed.

(* ================================================================== *)
(** ** validateHighlightRules *)
(* ================================================================== *)

Lemma validateLoop_app rules :
  forall index errors,
    validateLoop rules index errors = errors ++ validateLoop rules index [].
Proof.
  induction rules as [|rule rules IH]; intros index errors; simpl.
  - now rewrite app_nil_r.
  - rewrite IH. rewrite (IH (S index) (ruleErrors rule index)).
    now rewrite app_assoc.
Qed.

Lemma ruleErrors_nil rule index :
  ruleErrors rule index = [] <-> accepted rule = true.
Proof.
  unfold ruleErrors, accepted.
  destruct (textRejected rule), (colorRejected rule),
    (caseSensitiveRejected rule); simpl; split; intros H;
    try discriminate; reflexivity.
Qed.

(** The rules pass exactly when none of them is rejected for its text,
    its colour or its case flag. *)
Lemma validate_isValid rules :
  isValid (validateHighlightRules rules) = true
  <-> Forall (fun rule => accepted rule = true) rules.
Proof.
  unfold validateHighlightRules; simpl. rewrite Nat.eqb_eq, length_zero_iff_nil.
  generalize 0%nat.
  induction rules as [|rule rules IH]; intros index; simpl.
  - split; [constructor|reflexivity].
  - rewrite validateLoop_app. simpl. split.
    + intros H. apply app_eq_nil in H as [H1 H2].
      constructor; [now apply (ruleErrors_nil rule index)|now apply (IH (S index))].
    + intros H. inversion H as [|? ? Hr Hrs]; subst.
      apply (ruleErrors_nil rule index) in Hr. rewrite Hr. simpl.
      now apply (IH (S index)).
Qed.

(** The colours that pass are the three named ones and no other. *)
Lemma colorRejected_false rule :
  colorRejected rule = false
  <-> raw_color rule = JsString (js "red")
      \/ raw_color rule = JsString (js "green")
      \/ raw_color rule = JsString (js "yellow").
Proof.
  unfold colorRejected. rewrite orb_false_iff, !negb_false_iff. split.
  - intros [_ H]. destruct (raw_color rule) as [| | | |s|]; try discriminate.
    simpl in H. unfold jsstring_eqb in H.
    repeat match type of H with
           | context [list_eq_dec N.eq_dec ?a ?b] =>
               destruct (list_eq_dec N.eq_dec a b) as [->|]; [tauto|]
           end.
    discriminate.
  - intros [-> | [-> | ->]]; split; reflexivity.
Qed.

(** C8. Colour vocabulary, where the code departs from its own
    documentation.  The documentation of
    [HighlightRule] lists hex colours such as #e74c3c next to red, green
    and yellow; [validateHighlightRules] compares with the three named
    colours only, so a rule with a text and the colour #e74c3c is
    reported. *)
Theorem hex_color_is_reported :
  let rule := mkRawRule (JsString (js "Exclusion")) (JsString (js "#e74c3c"))
                (JsBoolean false) in
  documentedColor (js "#e74c3c") = true
  /\ textRejected rule = false
  /\ caseSensitiveRejected rule = false
  /\ validateHighlightRules [rule]
     = {| isValid := false; errors := [ColorNotListed 1] |}.
Proof. repeat split. Qed.

(* ================================================================== *)
(** ** Lines of a page *)
(* ================================================================== *)

Lemma Qgt_bool_true a b : Qgt_bool a b = true <-> (b < a)%Q.
Proof.
  unfold Qgt_bool. rewrite negb_true_iff. split.
  - intros H. apply Qnot_le_lt. rewrite <- Qle_bool_iff. congruence.
  - intros H. destruct (Qle_bool a b) eqn:E; [|reflexivity].
    apply Qle_bool_iff in E. exfalso. exact (Qlt_not_le _ _ H E).
Qed.

Lemma Qgt_bool_false a b : Qgt_bool a b = false <-> (a <= b)%Q.
Proof.
  unfold Qgt_bool. rewrite negb_false_iff. apply Qle_bool_iff.
Qed.

Lemma fold_itemStep items :
  forall lineText previous,
    fst (fold_left itemStep items
           (lineText, Some (numAdd (p_x previous) (p_width previous))))
    = lineText ++ afterFirst previous items.
Proof.
  induction items as [|item items IH]; intros lineText previous; simpl.
  - now rewrite app_nil_r.
  - rewrite IH. now rewrite <- !app_assoc.
Qed.

Lemma lineTextOf_lineByGaps items :
  lineTextOf items = lineByGaps (sortItems items).
Proof.
  unfold lineTextOf, lineByGaps.
  destruct (sortItems items) as [|first rest]; [reflexivity|].
  simpl. rewrite fold_itemStep. now rewrite <- app_assoc.
Qed.

(** C4. Line spacing: a line is built from its items in order of x; the
    first comes after floor(x/6) spaces, each later one after a separator
    chosen by gap = item.x - (previous.x + previous.width), the sum, the
    difference and the quotients computed in doubles as the code computes
    them: max(1, floor(gap/5)) spaces when gap > 5, one space when
    1 < gap <= 5, nothing when gap <= 1.  The page with "Hello" at x 0 and
    "World" at x 40, both 30 wide on y 100, has the one line
    "Hello  World": gap 10, two spaces, no indentation. *)
Theorem line_spacing_heuristic :
  (forall items : list Placed, lineTextOf items = lineByGaps (sortItems items))
  /\ (forall gap : Q, (5 < gap)%Q ->
        gapSeparator gap
        = repeat SPACE (Z.to_nat (Z.max 1 (Qfloor (numDiv gap 5)))))
  /\ (forall gap : Q, (1 < gap)%Q -> (gap <= 5)%Q -> gapSeparator gap = [SPACE])
  /\ (forall gap : Q, (gap <= 1)%Q -> gapSeparator gap = [])
  /\ (let hello := mkTextItem (js "Hello") (Some (0, 100)%Q) 30%Q in
      let world := mkTextItem (js "World") (Some (40, 100)%Q) 30%Q in
      pageLines [hello; world] = [js "Hello  World"]
      /\ Qfloor (numSub 40 (numAdd 0 30)) = 10
      /\ gapSeparator (numSub 40 (numAdd 0 30)) = [SPACE; SPACE]
      /\ indentation 0 = []
      /\ extractTextFromPDF [[hello; world]] = js "Hello  World").
Proof.
  split; [exact lineTextOf_lineByGaps|].
  split.
  { intros gap H. unfold gapSeparator.
    apply Qgt_bool_true in H. now rewrite H. }
  split.
  { intros gap H1 H5. unfold gapSeparator.
    apply Qgt_bool_true in H1. apply Qgt_bool_false in H5.
    now rewrite H5, H1. }
  split.
  { intros gap H1. unfold gapSeparator.
    assert (H5 : (gap <= 5)%Q)
      by (eapply Qle_trans; [exact H1|unfold Qle; simpl; lia]).
    apply Qgt_bool_false in H1. apply Qgt_bool_false in H5.
    now rewrite H5, H1. }
  repeat split.
Qed.

Lemma line_spacing_heuristic_witness :
  (5 < 12)%Q /\ (1 < 3)%Q /\ (3 <= 5)%Q /\ (1 # 2 <= 1)%Q
  /\ gapSeparator 12 = [SPACE; SPACE]
  /\ gapSeparator 3 = [SPACE]
  /\ gapSeparator (1 # 2) = [].
Proof.
  assert (H12 : (5 < 12)%Q) by (unfold Qlt; simpl; lia).
  assert (H3 : (1 < 3)%Q) by (unfold Qlt; simpl; lia).
  assert (H3' : (3 <= 5)%Q) by (unfold Qle; simpl; lia).
  assert (Hh : (1 # 2 <= 1)%Q) by (unfold Qle; simpl; lia).
  repeat (split; [assumption|]).
  destruct line_spacing_heuristic as (_ & Hbig & Hsmall & Hnone & _).
  split; [exact (Hbig 12%Q H12)|].
  split; [exact (Hsmall 3%Q H3 H3')|exact (Hnone (1 # 2)%Q Hh)].
Defined.

(** Where the rounding decides.  With x 0.1 and width 0.2 the end is the
    double 0.30000000000000004, and for the next item at x 1.3 the gap is
    the double 1: no separator, although the exact difference is above
    1.  With x 283.35 and width 39.4 the end is the double 322.75, and for
    the next item at x 337.75 the gap is 15: three spaces, although the
    exact difference is below 15. *)
Example rounding_decides_the_separator :
  let a := mkPlaced (js "a") (toDouble (1 # 10)) 100 (toDouble (2 # 10)) in
  let b := mkPlaced (js "b") (toDouble (13 # 10)) 100 0 in
  let c := mkPlaced (js "c") (toDouble (28335 # 100)) 100 (toDouble (394 # 10)) in
  let d := mkPlaced (js "d") (toDouble (33775 # 100)) 100 0 in
  (toDouble (1 # 10) == 3602879701896397 # 36028797018963968)%Q
  /\ (numAdd (p_x a) (p_width a) == 5404319552844596 # 18014398509481984)%Q
  /\ (numSub (p_x b) (numAdd (p_x a) (p_width a)) == 1)%Q
  /\ (1 < p_x b - (p_x a + p_width a))%Q
  /\ lineTextOf [a; b] = js "ab"
  /\ (numSub (p_x d) (numAdd (p_x c) (p_width c)) == 15)%Q
  /\ (p_x d - (p_x c + p_width c) < 15)%Q
  /\ lineTextOf [c; d] = (spaces 47 ++ js "c   d")%list.
Proof. vm_compute. repeat split; congruence. Qed.

(* ================================================================== *)
(** ** Pages of a document *)
(* ================================================================== *)

Lemma fold_lines lines :
  forall pageText,
    fold_left (fun pageText lineText => pageText ++ lineText ++ [LF])
      lines pageText
    = pageText ++ List.concat (List.map (fun line => line ++ [LF]) lines).
Proof.
  induction lines as [|line lines IH]; intros pageText; simpl.
  - now rewrite app_nil_r.
  - rewrite IH. now rewrite <- !app_assoc.
Qed.

Lemma pageTextOf_lines page :
  pageTextOf page
  = List.concat (List.map (fun line => line ++ [LF]) (pageLines page)).
Proof. unfold pageTextOf. now rewrite fold_lines. Qed.

Lemma terminated_lines_join line lines :
  List.concat (List.map (fun l => l ++ [LF]) (line :: lines))
  = joinLines (line :: lines) ++ [LF].
Proof.
  revert line. induction lines as [|next lines IH]; intros line.
  - simpl. now rewrite app_nil_r.
  - change (List.concat (List.map (fun l => l ++ [LF]) (line :: next :: lines)))
      with ((line ++ [LF])
            ++ List.concat (List.map (fun l => l ++ [LF]) (next :: lines))).
    rewrite IH. simpl. now rewrite <- !app_assoc.
Qed.

Lemma pageLoop_pages pages last :
  forall pageNum fullText,
    pageLoop (pages ++ [last]) pageNum (pageNum + List.length pages) fullText
    = fullText
      ++ List.concat (List.map (fun page => pageTextOf page ++ [LF]) pages)
      ++ pageTextOf last.
Proof.
  induction pages as [|page pages IH]; intros pageNum fullText; simpl.
  - rewrite Nat.add_0_r, Nat.ltb_irrefl. reflexivity.
  - destruct (Nat.ltb_spec pageNum (pageNum + S (List.length pages)));
      [|lia].
    replace (pageNum + S (List.length pages))%nat
      with (S pageNum + List.length pages)%nat by lia.
    rewrite IH. now rewrite <- !app_assoc.
Qed.

Lemma trimStart_runEnds s : runEnds (trimStart s).
Proof.
  induction s as [|c s IH]; simpl; [exact I|].
  destruct (isWhiteSpace c) eqn:Hc; [exact IH|exact Hc].
Qed.

Lemma trimStart_suffix s : exists run, s = run ++ trimStart s.
Proof.
  induction s as [|c s [run IH]]; simpl.
  - exists []. reflexivity.
  - destruct (isWhiteSpace c).
    + exists (c :: run). simpl. now rewrite <- IH.
    + exists []. reflexivity.
Qed.

Lemma trimEnd_prefix s : exists run, s = trimEnd s ++ run.
Proof.
  unfold trimEnd. destruct (trimStart_suffix (rev s)) as [run H].
  exists (rev run). rewrite <- rev_app_distr, <- H. now rewrite rev_involutive.
Qed.

(** Nothing that [trim] returns starts or ends with whitespace. *)
Lemma trim_trimmed s : runEnds (trim s) /\ runEnds (rev (trim s)).
Proof.
  unfold trim. split.
  - pose proof (trimStart_runEnds s) as Hs.
    destruct (trimEnd_prefix (trimStart s)) as [run H].
    destruct (trimEnd (trimStart s)) as [|c t]; [exact I|].
    rewrite H in Hs. exact Hs.
  - unfold trimEnd. rewrite rev_involutive. apply trimStart_runEnds.
Qed.

(** C5. Page joining: the text of a page is its lines, each followed by
    a newline (the lines joined by newlines, and the newline that ends the
    last one); every page but the last contributes its text and one more
    newline, which makes a blank line, the last page its text alone, and
    the result is the concatenation with the whitespace at both ends
    trimmed off.  Two pages whose lines are "A" and "B" give "A\n\nB". *)
Theorem page_joining :
  (forall page : list TextItem,
     pageTextOf page
     = List.concat (List.map (fun line => line ++ [LF]) (pageLines page)))
  /\ (forall page : list TextItem,
        pageLines page <> [] ->
        pageTextOf page = joinLines (pageLines page) ++ [LF])
  /\ (forall (pages : list (list TextItem)) (last : list TextItem),
        extractTextFromPDF (pages ++ [last])
        = trim (List.concat
                  (List.map (fun page => pageTextOf page ++ [LF]) pages)
                ++ pageTextOf last))
  /\ extractTextFromPDF [] = []
  /\ (forall pages : list (list TextItem),
        runEnds (extractTextFromPDF pages)
        /\ runEnds (rev (extractTextFromPDF pages)))
  /\ (forall first second : list TextItem,
        pageLines first = [js "A"] -> pageLines second = [js "B"] ->
        extractTextFromPDF [first; second] = js "A" ++ [LF; LF] ++ js "B").
Proof.
  split; [exact pageTextOf_lines|].
  split.
  { intros page H. rewrite pageTextOf_lines.
    destruct (pageLines page) as [|line lines]; [congruence|].
    apply terminated_lines_join. }
  split.
  { intros pages last. unfold extractTextFromPDF.
    rewrite length_app, Nat.add_comm. simpl List.length.
    now rewrite (pageLoop_pages pages last 1 []). }
  split; [reflexivity|].
  split.
  { intros pages. apply trim_trimmed. }
  intros first second HA HB.
  unfold extractTextFromPDF. simpl.
  rewrite !pageTextOf_lines, HA, HB. reflexivity.
Qed.

Lemma page_joining_witness :
  let first := [ mkTextItem (js "A") (Some (72, 700)%Q) 8%Q ] in
  pageLines first = [(spaces 12 ++ js "A")%list]
  /\ pageLines [ mkTextItem (js "A") (Some (0, 700)%Q) 8%Q ] = [js "A"]
  /\ pageLines [ mkTextItem (js "B") (Some (0, 700)%Q) 8%Q ] = [js "B"]
  /\ extractTextFromPDF
       [ [ mkTextItem (js "A") (Some (0, 700)%Q) 8%Q ];
         [ mkTextItem (js "B") (Some (0, 700)%Q) 8%Q ] ]
     = (js "A" ++ [LF; LF] ++ js "B")%list
  /\ pageTextOf first = (joinLines (pageLines first) ++ [LF])%list.
Proof.
  intros first.
  destruct page_joining as (_ & Hjoin & _ & _ & _ & Htwo).
  split; [reflexivity|].
  split; [reflexivity|].
  split; [reflexivity|].
  split.
  - apply Htwo; reflexivity.
  - apply Hjoin. discriminate.
Defined.

(* ================================================================== *)
(** ** More about mergeOverlappingHighlights *)
(* ================================================================== *)

Lemma mergeLoop_separate rest :
  forall merged current,
    Sorted endsBefore (current :: rest) ->
    mergeLoop merged current rest = merged ++ current :: rest.
Proof.
  induction rest as [|next rest IH]; intros merged current Hs; simpl.
  - reflexivity.
  - inversion Hs as [|? ? Hs' Hd]; subst.
    inversion Hd as [|? ? Hcn]; subst. unfold endsBefore in Hcn.
    destruct (Z.ltb_spec (h_start next) (h_end current)); [lia|].
    rewrite IH by assumption. now rewrite <- app_assoc.
Qed.

Lemma mergeLoop_keeps (Q : Z -> jsstring -> Prop) rest :
  forall merged current,
    Forall (fun h => Q (h_start h) (h_color h)) merged ->
    Q (h_start current) (h_color current) ->
    Forall (fun h => Q (h_start h) (h_color h)) rest ->
    Forall (fun h => Q (h_start h) (h_color h)) (mergeLoop merged current rest).
Proof.
  induction rest as [|next rest IH]; intros merged current Hm Hc Hr; simpl.
  - apply Forall_app; split; [assumption|now constructor].
  - inversion Hr as [|? ? Hn Hr']; subst.
    destruct (h_start next <? h_end current).
    + apply IH; try assumption.
      destruct (h_start next >? h_start current); [|assumption].
      apply Forall_app; split; [assumption|now constructor].
    + apply IH; try assumption.
      apply Forall_app; split; [assumption|now constructor].
Qed.

Lemma mergeLoop_length rest :
  forall merged current,
    (List.length (mergeLoop merged current rest)
     <= List.length merged + S (List.length rest))%nat.
Proof.
  induction rest as [|next rest IH]; intros merged current; simpl.
  - rewrite length_app. simpl. lia.
  - destruct (h_start next <? h_end current).
    + etransitivity; [apply IH|].
      destruct (h_start next >? h_start current);
        rewrite ?length_app; simpl; lia.
    + etransitivity; [apply IH|]. rewrite length_app. simpl. lia.
Qed.

Lemma mergeLoop_nonempty rest :
  forall merged current, mergeLoop merged current rest <> [].
Proof.
  induction rest as [|next rest IH]; intros merged current; simpl.
  - destruct merged; discriminate.
  - destruct (h_start next <? h_end current); apply IH.
Qed.

(** X1. A list whose spans already follow one another without overlap
    comes back from [mergeOverlappingHighlights] unchanged; so merging the
    result of a merge of sorted spans changes nothing. *)
Theorem merge_is_idempotent :
  (forall highlights,
     Sorted endsBefore highlights ->
     mergeOverlappingHighlights highlights = highlights)
  /\ (forall highlights,
        startsSorted highlights -> Forall wellFormed highlights ->
        mergeOverlappingHighlights (mergeOverlappingHighlights highlights)
        = mergeOverlappingHighlights highlights).
Proof.
  assert (Hid : forall highlights,
             Sorted endsBefore highlights ->
             mergeOverlappingHighlights highlights = highlights).
  { intros [|first rest] Hs; [reflexivity|].
    simpl. now rewrite mergeLoop_separate. }
  split; [exact Hid|].
  intros highlights Hs Hw. apply Hid.
  apply StronglySorted_Sorted. now apply merge_disjoint.
Qed.

Lemma merge_is_idempotent_witness :
  let separate :=
    [ mkHighlight 0 3 (js "red"); mkHighlight 3 3 (js "green");
      mkHighlight 3 8 (js "yellow") ] in
  let overlapping :=
    [ mkHighlight 0 5 (js "red"); mkHighlight 3 8 (js "green");
      mkHighlight 4 6 (js "yellow") ] in
  Sorted endsBefore separate
  /\ mergeOverlappingHighlights separate = separate
  /\ startsSorted overlapping /\ Forall wellFormed overlapping
  /\ mergeOverlappingHighlights (mergeOverlappingHighlights overlapping)
     = mergeOverlappingHighlights overlapping.
Proof.
  intros separate overlapping.
  assert (H1 : Sorted endsBefore separate)
    by (unfold endsBefore, separate; repeat constructor; simpl; lia).
  assert (H2 : startsSorted overlapping)
    by (unfold startsSorted, overlapping; repeat constructor; simpl; lia).
  assert (H3 : Forall wellFormed overlapping)
    by (unfold wellFormed, overlapping; repeat constructor; simpl; lia).
  split; [exact H1|].
  split; [exact (proj1 merge_is_idempotent separate H1)|].
  split; [exact H2|]. split; [exact H3|].
  exact (proj2 merge_is_idempotent overlapping H2 H3).
Defined.

(** X2. [mergeOverlappingHighlights] never returns more spans than it
    was given, returns at least one when given one, and every span it
    returns starts where some span of the input starts and has the colour
    of that span. *)
Theorem merge_invents_nothing (highlights : list Highlight) :
  (List.length (mergeOverlappingHighlights highlights)
   <= List.length highlights)%nat
  /\ (highlights <> [] -> mergeOverlappingHighlights highlights <> [])
  /\ Forall (fun m => exists h, In h highlights
                                /\ h_start m = h_start h
                                /\ h_color m = h_color h)
       (mergeOverlappingHighlights highlights).
Proof.
  destruct highlights as [|first rest]; simpl.
  - repeat split; [lia|congruence|constructor].
  - split; [|split].
    + etransitivity; [apply mergeLoop_length|]. simpl. lia.
    + intros _. apply mergeLoop_nonempty.
    + apply (mergeLoop_keeps
               (fun s c => exists h, In h (first :: rest)
                                     /\ s = h_start h /\ c = h_color h)).
      * constructor.
      * exists first. repeat split. now left.
      * apply Forall_forall. intros h Hh. exists h. repeat split. now right.
Qed.

Lemma merge_invents_nothing_witness :
  let highlights := [ mkHighlight 0 5 (js "red"); mkHighlight 3 8 (js "green") ] in
  highlights <> []
  /\ mergeOverlappingHighlights highlights <> [].
Proof.
  intros highlights.
  assert (H : highlights <> []) by discriminate.
  split; [exact H|].
  exact (proj1 (proj2 (merge_invents_nothing highlights)) H).
Defined.

(* ================================================================== *)
(** ** The segments, one by one *)
(* ================================================================== *)

Lemma fold_segmentStep originalText merged :
  forall segments cursor,
    fold_left (segmentStep originalText) merged (segments, cursor)
    = (segments ++ segmentsFrom originalText merged cursor,
       cursorAfter merged cursor).
Proof.
  induction merged as [|h merged IH]; intros segments cursor; simpl.
  - now rewrite app_nil_r.
  - unfold cursorAfter in *. simpl. rewrite IH. f_equal.
    destruct (h_start h >? cursor); rewrite <- !app_assoc; reflexivity.
Qed.

(** [createHighlightedSegments] after the merge, without the loop. *)
Lemma buildSegments_segmentsFrom originalText merged :
  buildSegments originalText merged
  = match
      segmentsFrom originalText merged 0
      ++ (if cursorAfter merged 0 <? strlen originalText
          then [ {| text := substringFrom originalText (cursorAfter merged 0);
                    highlighted := false; color := None |} ]
          else [])
    with
    | [] => [plainSegment originalText]
    | s :: l => s :: l
    end.
Proof.
  unfold buildSegments. rewrite fold_segmentStep. simpl.
  destruct (cursorAfter merged 0 <? strlen originalText).
  - now destruct (segmentsFrom originalText merged 0 ++ _).
  - rewrite app_nil_r. now destruct (segmentsFrom originalText merged 0).
Qed.

Lemma substring_length originalText a b :
  0 <= a <= b -> b <= strlen originalText ->
  List.length (substring originalText a b) = Z.to_nat (b - a).
Proof.
  intros Hab Hb. unfold substring.
  assert (clamp (strlen originalText) a = a) as -> by (unfold clamp; lia).
  assert (clamp (strlen originalText) b = b) as -> by (unfold clamp; lia).
  rewrite Z.min_l, Z.max_r by lia.
  rewrite length_firstn, length_skipn. unfold strlen in Hb. lia.
Qed.

Lemma cursorAfter_cons h merged cursor :
  cursorAfter (h :: merged) cursor = cursorAfter merged (h_end h).
Proof. reflexivity. Qed.

Lemma cursorAfter_bounds len merged :
  forall cursor,
    cursor <= len ->
    StronglySorted endsBefore merged ->
    Forall wellFormed merged ->
    Forall (withinText len) merged ->
    Forall (fun h => cursor <= h_start h) merged ->
    cursor <= cursorAfter merged cursor <= len.
Proof.
  induction merged as [|h merged IH]; intros cursor Hc Hs Hw Hin Hge.
  - unfold cursorAfter; simpl; lia.
  - inversion Hs as [|? ? Hs' Hd]; subst.
    inversion Hw as [|? ? Wh Hw']; subst.
    inversion Hin as [|? ? [Ih1 Ih2] Hin']; subst.
    inversion Hge as [|? ? Gh Hge']; subst.
    unfold wellFormed in Wh. rewrite cursorAfter_cons.
    specialize (IH (h_end h)).
    assert (h_end h <= cursorAfter merged (h_end h) <= len); [|lia].
    apply IH; try assumption.
Qed.

Lemma maskFrom_app l a :
  forall from b,
    maskFrom l from (a + b)
    = maskFrom l from a ++ maskFrom l (from + Z.of_nat a) b.
Proof.
  induction a as [|a IH]; intros from b.
  - simpl. now rewrite Z.add_0_r.
  - cbn [Nat.add maskFrom app]. rewrite IH. do 3 f_equal. lia.
Qed.

Lemma maskFrom_ext l l' n :
  forall from,
    (forall p, from <= p < from + Z.of_nat n -> coversb l p = coversb l' p) ->
    maskFrom l from n = maskFrom l' from n.
Proof.
  induction n as [|n IH]; intros from H; simpl; [reflexivity|].
  rewrite (H from) by lia. f_equal. apply IH. intros p Hp. apply H. lia.
Qed.

Lemma maskFrom_repeat l b n :
  forall from,
    (forall p, from <= p < from + Z.of_nat n -> coversb l p = b) ->
    maskFrom l from n = repeat b n.
Proof.
  induction n as [|n IH]; intros from H; simpl; [reflexivity|].
  rewrite (H from) by lia. f_equal. apply IH. intros p Hp. apply H. lia.
Qed.

Lemma maskFrom_length l n : forall from, List.length (maskFrom l from n) = n.
Proof. induction n; intros from; simpl; [reflexivity|now rewrite IHn]. Qed.

Lemma coversb_outside l p :
  Forall (fun h => p < h_start h \/ h_end h <= p) l -> coversb l p = false.
Proof.
  induction 1 as [|h l Hh Hl IH]; simpl; [reflexivity|].
  rewrite IH, orb_false_r. unfold insideb.
  destruct (Z.leb_spec (h_start h) p), (Z.ltb_spec p (h_end h));
    simpl; try reflexivity; lia.
Qed.

Lemma highlightMask_app l1 l2 :
  highlightMask (l1 ++ l2) = highlightMask l1 ++ highlightMask l2.
Proof. unfold highlightMask. apply flat_map_app. Qed.

(** The characters of the segments of the loop are highlighted exactly
    where a merged span covers them. *)
Lemma highlightMask_segmentsFrom originalText merged :
  forall cursor,
    0 <= cursor <= strlen originalText ->
    StronglySorted endsBefore merged ->
    Forall wellFormed merged ->
    Forall (withinText (strlen originalText)) merged ->
    Forall (fun h => cursor <= h_start h) merged ->
    highlightMask (segmentsFrom originalText merged cursor)
    = maskFrom merged cursor (Z.to_nat (cursorAfter merged cursor - cursor))
    /\ forall p, cursorAfter merged cursor <= p -> coversb merged p = false.
Proof.
  induction merged as [|h merged IH]; intros cursor Hc Hs Hw Hin Hge.
  - unfold cursorAfter; simpl. rewrite Z.sub_diag. split; reflexivity.
  - pose proof (cursorAfter_bounds _ _ _ (proj2 Hc) Hs Hw Hin Hge) as Hfinal.
    inversion Hs as [|? ? Hs' Hd]; subst.
    inversion Hw as [|? ? Wh Hw']; subst.
    inversion Hin as [|? ? [Ih1 Ih2] Hin']; subst.
    inversion Hge as [|? ? Gh Hge']; subst.
    unfold wellFormed in Wh. rewrite cursorAfter_cons in *.
    assert (Hnext : Forall (fun h0 => h_end h <= h_start h0) merged) by exact Hd.
    destruct (IH (h_end h)) as [IHmask IHout]; try assumption; [lia|].
    pose proof (cursorAfter_bounds (strlen originalText) merged (h_end h)
                  Ih2 Hs' Hw' Hin' Hnext) as Hrest.
    split.
    + cbn [segmentsFrom]. rewrite highlightMask_app.
      replace (Z.to_nat (cursorAfter merged (h_end h) - cursor))
        with (Z.to_nat (h_start h - cursor)
              + (Z.to_nat (h_end h - h_start h)
                 + Z.to_nat (cursorAfter merged (h_end h) - h_end h)))%nat
        by lia.
      rewrite !maskFrom_app. f_equal.
      * rewrite (maskFrom_repeat _ false).
        -- destruct (Z.gtb_spec (h_start h) cursor) as [Hgt|Hngt].
           ++ unfold highlightMask. simpl. rewrite app_nil_r.
              now rewrite substring_length by lia.
           ++ replace (Z.to_nat (h_start h - cursor)) with 0%nat by lia.
              reflexivity.
        -- intros p Hp. apply coversb_outside. constructor; [lia|].
           eapply Forall_impl; [|exact Hnext]. simpl. intros; lia.
      * unfold highlightMask at 1. cbn [flat_map highlighted text].
        fold (highlightMask (segmentsFrom originalText merged (h_end h))).
        rewrite substring_length by lia. f_equal.
        -- rewrite (maskFrom_repeat _ true); [reflexivity|].
           intros p Hp. simpl. unfold insideb.
           destruct (Z.leb_spec (h_start h) p), (Z.ltb_spec p (h_end h));
             simpl; try reflexivity; lia.
        -- rewrite IHmask.
           replace (cursor + Z.of_nat (Z.to_nat (h_start h - cursor))
                    + Z.of_nat (Z.to_nat (h_end h - h_start h)))
             with (h_end h) by lia.
           apply maskFrom_ext. intros p Hp. simpl. unfold insideb.
           destruct (Z.ltb_spec p (h_end h)); [lia|].
           now rewrite andb_false_r.
    + intros p Hp. simpl. rewrite (IHout p Hp), orb_false_r. unfold insideb.
      destruct (Z.ltb_spec p (h_end h)); [lia|]. now rewrite andb_false_r.
Qed.

Lemma substringFrom_length originalText a :
  0 <= a <= strlen originalText ->
  List.length (substringFrom originalText a)
  = Z.to_nat (strlen originalText - a).
Proof. intros Ha. unfold substringFrom. apply substring_length; lia. Qed.

Lemma highlightMask_buildSegments originalText merged :
  StronglySorted endsBefore merged ->
  Forall wellFormed merged ->
  Forall (withinText (strlen originalText)) merged ->
  highlightMask (buildSegments originalText merged)
  = maskFrom merged 0 (List.length originalText).
Proof.
  intros Hs Hw Hin.
  assert (Hge : Forall (fun h => 0 <= h_start h) merged).
  { eapply Forall_impl; [|exact Hin]. unfold withinText. intros; lia. }
  assert (Hlen : 0 <= strlen originalText) by (unfold strlen; lia).
  pose proof (cursorAfter_bounds _ _ 0 Hlen Hs Hw Hin Hge) as Hfinal.
  destruct (highlightMask_segmentsFrom originalText merged 0)
    as [Hmask Hout]; try assumption; [lia|].
  rewrite Z.sub_0_r in Hmask.
  assert (Hall : highlightMask
             (segmentsFrom originalText merged 0
              ++ (if cursorAfter merged 0 <? strlen originalText
                  then [ {| text := substringFrom originalText
                                      (cursorAfter merged 0);
                            highlighted := false; color := None |} ]
                  else []))
           = maskFrom merged 0 (List.length originalText)).
  { rewrite highlightMask_app, Hmask.
    replace (List.length originalText)
      with (Z.to_nat (cursorAfter merged 0)
            + Z.to_nat (strlen originalText - cursorAfter merged 0))%nat
      by (unfold strlen in *; lia).
    rewrite maskFrom_app. f_equal.
    rewrite (maskFrom_repeat _ false).
    - destruct (Z.ltb_spec (cursorAfter merged 0) (strlen originalText)).
      + unfold highlightMask. simpl. rewrite app_nil_r.
        now rewrite substringFrom_length by lia.
      + replace (Z.to_nat (strlen originalText - cursorAfter merged 0))
          with 0%nat by lia.
        reflexivity.
    - intros p Hp. apply Hout. lia. }
  rewrite buildSegments_segmentsFrom.
  destruct (segmentsFrom originalText merged 0 ++ _) as [|s l]; [|exact Hall].
  rewrite <- Hall. unfold highlightMask, plainSegment. simpl.
  apply (f_equal (@List.length bool)) in Hall. rewrite maskFrom_length in Hall.
  simpl in Hall. rewrite <- Hall. reflexivity.
Qed.

Lemma insideb_inside p h : insideb p h = true <-> inside p h.
Proof.
  unfold insideb, inside. rewrite andb_true_iff, Z.leb_le, Z.ltb_lt. tauto.
Qed.

Lemma coversb_covers l p : coversb l p = true <-> covers l p.
Proof.
  unfold coversb, covers. rewrite existsb_exists, Exists_exists.
  split; intros (h & Hin & Hh); exists h; split; try assumption;
    now apply insideb_inside.
Qed.

Lemma merge_covers highlights p :
  startsSorted highlights ->
  (covers (mergeOverlappingHighlights highlights) p <-> covers highlights p).
Proof.
  intros Hs. destruct highlights as [|first rest]; simpl.
  - reflexivity.
  - now rewrite mergeLoop_covers.
Qed.

Lemma sortInsert_Exists {A} (leb : A -> A -> bool) (P : A -> Prop) x l :
  Exists P (sortInsert leb x l) <-> P x \/ Exists P l.
Proof.
  induction l as [|y l IH]; simpl.
  - apply Exists_cons.
  - destruct (leb x y).
    + apply Exists_cons.
    + rewrite !Exists_cons, IH. tauto.
Qed.

Lemma stableSort_Exists {A} (leb : A -> A -> bool) (P : A -> Prop) l :
  Exists P (stableSort leb l) <-> Exists P l.
Proof.
  induction l as [|x l IH]; simpl; [reflexivity|].
  rewrite sortInsert_Exists, Exists_cons, IH. reflexivity.
Qed.

Lemma maskFrom_nth l n :
  forall from p, (p < n)%nat ->
    nth p (maskFrom l from n) false = coversb l (from + Z.of_nat p).
Proof.
  induction n as [|n IH]; intros from p Hp; [lia|].
  destruct p as [|p]; simpl maskFrom; cbn [nth].
  - now rewrite Z.add_0_r.
  - rewrite IH by lia. f_equal. lia.
Qed.

(** X3. Highlighted exactly where matched: walking through the segments
    that [createHighlightedSegments] returns, a character of the document
    lies in a highlighted segment if and only if its position is inside a
    match of one of the rules. *)
Theorem highlighted_exactly_where_matched
    (toUpperCase : code_unit -> jsstring) (originalText : jsstring)
    (rules : list HighlightRule) :
  exists highlights segments,
    collectHighlights toUpperCase originalText rules [] = Some highlights
    /\ createHighlightedSegments toUpperCase originalText (Some rules)
       = Some segments
    /\ highlightMask segments
       = maskFrom highlights 0 (List.length originalText)
    /\ forall p, (p < List.length originalText)%nat ->
         (nth p (highlightMask segments) false = true
          <-> covers highlights (Z.of_nat p)).
Proof.
  destruct (collectHighlights_total toUpperCase originalText rules [])
    as (hs & Hhs & Hin & Hw); try constructor.
  assert (Hmask : exists segments,
             createHighlightedSegments toUpperCase originalText (Some rules)
             = Some segments
             /\ highlightMask segments
                = maskFrom hs 0 (List.length originalText)).
  { destruct rules as [|rule rules].
    - simpl in Hhs. injection Hhs as <-.
      eexists; split; [reflexivity|].
      unfold highlightMask, plainSegment. simpl. rewrite app_nil_r.
      symmetry. apply maskFrom_repeat. reflexivity.
    - unfold createHighlightedSegments. rewrite Hhs.
      eexists; split; [reflexivity|].
      destruct (merge_disjoint (sortByStart hs)) as [Hd Hwf].
      + apply sortByStart_sorted.
      + now apply stableSort_Forall.
      + rewrite highlightMask_buildSegments; try assumption.
        * apply maskFrom_ext. intros p _. apply eq_iff_eq_true.
          rewrite !coversb_covers, merge_covers by apply sortByStart_sorted.
          apply stableSort_Exists.
        * apply merge_within. now apply stableSort_Forall. }
  destruct Hmask as (segments & Hseg & Hmask).
  exists hs, segments. repeat split; try assumption.
  - intros Hn. rewrite Hmask, maskFrom_nth in Hn by assumption.
    now apply coversb_covers.
  - intros Hn. rewrite Hmask, maskFrom_nth by assumption.
    now apply coversb_covers.
Qed.

Lemma highlighted_exactly_where_matched_witness :
  let rules := [ mkRule (js "bc") (js "red") false;
                 mkRule (js "ab") (js "green") false ] in
  exists highlights segments,
    collectHighlights latinUpperCase (js "abcd") rules [] = Some highlights
    /\ createHighlightedSegments latinUpperCase (js "abcd") (Some rules)
       = Some segments
    /\ (2 < List.length (js "abcd"))%nat
    /\ (nth 2 (highlightMask segments) false = true
        <-> covers highlights (Z.of_nat 2)).
Proof.
  intros rules.
  destruct (highlighted_exactly_where_matched latinUpperCase (js "abcd") rules)
    as (hs & segments & H1 & H2 & _ & H4).
  assert (Hp : (2 < List.length (js "abcd"))%nat) by (simpl; lia).
  exists hs, segments.
  split; [exact H1|]. split; [exact H2|]. split; [exact Hp|].
  exact (H4 2%nat Hp).
Defined.

(* ================================================================== *)
(** ** What the segments carry *)
(* ================================================================== *)


Lemma mergeLoop_positive rest :
  forall merged current,
    Forall positive merged -> positive current -> Forall positive rest ->
    Forall positive (mergeLoop merged current rest).
Proof.
  unfold positive.
  induction rest as [|next rest IH]; intros merged current Hm Hc Hr; simpl.
  - apply Forall_app; split; [assumption|now constructor].
  - inversion Hr as [|? ? Hn Hr']; subst.
    destruct (Z.ltb_spec (h_start next) (h_end current)).
    + apply IH; simpl; try assumption; try lia.
      destruct (Z.gtb_spec (h_start next) (h_start current)); [|assumption].
      apply Forall_app; split; [assumption|]. constructor; simpl; [lia|constructor].
    + apply IH; try assumption.
      apply Forall_app; split; [assumption|now constructor].
Qed.

Lemma merge_positive highlights :
  Forall positive highlights ->
  Forall positive (mergeOverlappingHighlights highlights).
Proof.
  destruct highlights as [|first rest]; simpl; intros H; [constructor|].
  inversion H; subst. apply mergeLoop_positive; try assumption; constructor.
Qed.

Lemma ruleHighlights_facts toUpperCase originalText rule :
  exists hs,
    ruleHighlights toUpperCase originalText rule = Some hs
    /\ Forall (withinText (strlen originalText)) hs
    /\ Forall wellFormed hs
    /\ Forall (fun h => h_color h = rule_color rule) hs
    /\ (rule_text rule <> [] -> Forall positive hs).
Proof.
  unfold ruleHighlights.
  destruct (ruleMatches_total toUpperCase originalText rule) as (ms & -> & Hms).
  eexists; split; [reflexivity|].
  repeat split.
  - apply Forall_map; eapply Forall_impl; try exact Hms;
      intros m Hm; eapply properMatch_withinText; eassumption.
  - apply Forall_map; eapply Forall_impl; try exact Hms;
      intros m Hm; eapply properMatch_withinText; eassumption.
  - apply Forall_map. apply Forall_forall. reflexivity.
  - intros Hne. apply ruleTokens_length in Hne.
    apply Forall_map. eapply Forall_impl; [|exact Hms].
    intros m [_ Hm]. apply matchHere_bounds in Hm.
    unfold positive, toHighlight; simpl. lia.
Qed.

Lemma collectHighlights_facts toUpperCase originalText (P : Highlight -> Prop)
    rules :
  (forall rule hs,
     In rule rules ->
     ruleHighlights toUpperCase originalText rule = Some hs -> Forall P hs) ->
  forall highlights hs,
    Forall P highlights ->
    collectHighlights toUpperCase originalText rules highlights = Some hs ->
    Forall P hs.
Proof.
  induction rules as [|rule rules IH]; intros Hr highlights hs Hacc; simpl.
  - now intros [= <-].
  - destruct (ruleHighlights toUpperCase originalText rule) as [found|] eqn:E;
      [|discriminate].
    apply IH.
    + intros r h Hin. apply Hr. now right.
    + apply Forall_app; split; [assumption|].
      apply (Hr rule); [now left|assumption].
Qed.

Lemma segmentsFrom_nonempty originalText merged :
  forall cursor,
    0 <= cursor ->
    StronglySorted endsBefore merged ->
    Forall positive merged ->
    Forall (withinText (strlen originalText)) merged ->
    Forall (fun h => cursor <= h_start h) merged ->
    Forall (fun s => text s <> []) (segmentsFrom originalText merged cursor).
Proof.
  induction merged as [|h merged IH]; intros cursor Hc Hs Hp Hin Hge; simpl.
  - constructor.
  - inversion Hs as [|? ? Hs' Hd]; subst.
    inversion Hp as [|? ? Ph Hp']; subst.
    inversion Hin as [|? ? [Ih1 Ih2] Hin']; subst.
    inversion Hge as [|? ? Gh Hge']; subst.
    unfold positive in Ph.
    assert (Hnonempty : forall a b,
               0 <= a -> a < b -> b <= strlen originalText ->
               substring originalText a b <> []).
    { intros a b Ha Hab Hb E. apply (f_equal (@List.length code_unit)) in E.
      rewrite substring_length in E by lia. simpl in E. lia. }
    apply Forall_app; split.
    + destruct (Z.gtb_spec (h_start h) cursor); constructor; simpl;
        [apply Hnonempty; lia|constructor].
    + constructor; simpl; [apply Hnonempty; lia|].
      apply IH; try assumption. lia.
Qed.

(** X4. No empty segment: when the document is not empty and no rule has
    an empty text, every segment that [createHighlightedSegments] returns,
    highlighted or not, has at least one character. *)
Theorem no_segment_is_empty
    (toUpperCase : code_unit -> jsstring) (originalText : jsstring)
    (rules : list HighlightRule) :
  originalText <> [] ->
  Forall (fun rule => rule_text rule <> []) rules ->
  exists segments,
    createHighlightedSegments toUpperCase originalText (Some rules)
    = Some segments
    /\ Forall (fun s => text s <> []) segments.
Proof.
  intros Hdoc Hrules.
  destruct rules as [|rule rules].
  { eexists; split; [reflexivity|]. now repeat constructor. }
  unfold createHighlightedSegments.
  destruct (collectHighlights_total toUpperCase originalText (rule :: rules) [])
    as (hs & Hhs & Hin & Hw); try constructor.
  rewrite Hhs. eexists; split; [reflexivity|].
  assert (Hpos : Forall positive hs).
  { apply (collectHighlights_facts toUpperCase originalText positive
             (rule :: rules)) with (highlights := []);
      [|constructor|assumption].
    intros r found Hr Hfound.
    destruct (ruleHighlights_facts toUpperCase originalText r)
      as (found' & Hf & _ & _ & _ & Hp).
    rewrite Hfound in Hf. injection Hf as <-. apply Hp.
    rewrite Forall_forall in Hrules. now apply Hrules. }
  destruct (merge_disjoint (sortByStart hs)) as [Hd Hwf];
    [apply sortByStart_sorted|now apply stableSort_Forall|].
  set (merged := mergeOverlappingHighlights (sortByStart hs)) in *.
  assert (Hmpos : Forall positive merged)
    by (apply merge_positive; now apply stableSort_Forall).
  assert (Hmin : Forall (withinText (strlen originalText)) merged)
    by (apply merge_within; now apply stableSort_Forall).
  assert (Hge : Forall (fun h => 0 <= h_start h) merged).
  { eapply Forall_impl; [|exact Hmin]. unfold withinText. intros; lia. }
  assert (Hlen : 0 <= strlen originalText) by (unfold strlen; lia).
  pose proof (cursorAfter_bounds _ _ 0 Hlen Hd Hwf Hmin Hge) as Hfinal.
  rewrite buildSegments_segmentsFrom.
  assert (Hall : Forall (fun s => text s <> [])
            (segmentsFrom originalText merged 0
             ++ (if cursorAfter merged 0 <? strlen originalText
                 then [ {| text := substringFrom originalText
                                     (cursorAfter merged 0);
                           highlighted := false; color := None |} ]
                 else []))).
  { apply Forall_app; split.
    - apply segmentsFrom_nonempty; try assumption. lia.
    - destruct (Z.ltb_spec (cursorAfter merged 0) (strlen originalText));
        constructor; [|constructor].
      simpl. intros E. apply (f_equal (@List.length code_unit)) in E.
      rewrite substringFrom_length in E by lia. simpl in E. lia. }
  destruct (segmentsFrom originalText merged 0 ++ _) as [|s l];
    [|exact Hall].
  now repeat constructor.
Qed.

Lemma no_segment_is_empty_witness :
  let rules := [ mkRule (js "bc") (js "red") false;
                 mkRule (js " ") (js "green") false ] in
  js "ab  bc d" <> []
  /\ Forall (fun rule => rule_text rule <> []) rules
  /\ exists segments,
       createHighlightedSegments latinUpperCase (js "ab  bc d") (Some rules)
       = Some segments
       /\ Forall (fun s => text s <> []) segments.
Proof.
  intros rules.
  assert (H1 : js "ab  bc d" <> []) by discriminate.
  assert (H2 : Forall (fun rule => rule_text rule <> []) rules)
    by (repeat constructor; discriminate).
  split; [exact H1|]. split; [exact H2|].
  exact (no_segment_is_empty latinUpperCase (js "ab  bc d") rules H1 H2).
Defined.

Lemma merge_keeps (Q : Z -> jsstring -> Prop) highlights :
  Forall (fun h => Q (h_start h) (h_color h)) highlights ->
  Forall (fun h => Q (h_start h) (h_color h))
    (mergeOverlappingHighlights highlights).
Proof.
  destruct highlights as [|first rest]; simpl; intros H; [constructor|].
  inversion H; subst. apply mergeLoop_keeps; try assumption; constructor.
Qed.

Lemma segmentsFrom_colours colours originalText merged :
  forall cursor,
    Forall (fun h => In (h_color h) colours) merged ->
    Forall (colourFrom colours) (segmentsFrom originalText merged cursor).
Proof.
  induction merged as [|h merged IH]; intros cursor Hc; simpl.
  - constructor.
  - inversion Hc; subst. apply Forall_app; split.
    + destruct (h_start h >? cursor); repeat constructor.
    + constructor; [split; [reflexivity|assumption]|now apply IH].
Qed.

(** X5. Colours of the segments: a highlighted segment of
    [createHighlightedSegments] always carries the colour of one of the
    rules, and a segment that is not highlighted carries none. *)
Theorem segment_colours_come_from_rules
    (toUpperCase : code_unit -> jsstring) (originalText : jsstring)
    (rules : list HighlightRule) (segments : list Segment) :
  createHighlightedSegments toUpperCase originalText (Some rules)
  = Some segments ->
  Forall (fun s =>
            match color s with
            | Some c => highlighted s = true
                        /\ In c (List.map rule_color rules)
            | None => highlighted s = false
            end) segments.
Proof.
  set (colours := List.map rule_color rules).
  change (createHighlightedSegments toUpperCase originalText (Some rules)
          = Some segments -> Forall (colourFrom colours) segments).
  destruct rules as [|rule rules].
  { intros [= <-]. now repeat constructor. }
  unfold createHighlightedSegments.
  destruct (collectHighlights toUpperCase originalText (rule :: rules) [])
    as [hs|] eqn:Hhs; [|discriminate].
  intros [= <-].
  assert (Hcol : Forall (fun h => In (h_color h) colours) hs).
  { apply (collectHighlights_facts toUpperCase originalText
             (fun h => In (h_color h) colours) (rule :: rules))
      with (highlights := []); [|constructor|assumption].
    intros r found Hr Hfound.
    destruct (ruleHighlights_facts toUpperCase originalText r)
      as (found' & Hf & _ & _ & Hc & _).
    rewrite Hfound in Hf. injection Hf as <-.
    eapply Forall_impl; [|exact Hc]. intros h ->.
    unfold colours. now apply in_map. }
  rewrite buildSegments_segmentsFrom.
  assert (Hall : Forall (colourFrom colours)
            (segmentsFrom originalText
               (mergeOverlappingHighlights (sortByStart hs)) 0
             ++ (if cursorAfter (mergeOverlappingHighlights (sortByStart hs)) 0
                    <? strlen originalText
                 then [ {| text := substringFrom originalText
                                     (cursorAfter
                                        (mergeOverlappingHighlights
                                           (sortByStart hs)) 0);
                           highlighted := false; color := None |} ]
                 else []))).
  { apply Forall_app; split.
    - apply segmentsFrom_colours.
      apply (merge_keeps (fun _ c => In c colours)).
      now apply stableSort_Forall.
    - destruct (_ <? _); repeat constructor. }
  destruct (segmentsFrom originalText _ 0 ++ _) as [|s l]; [|exact Hall].
  now repeat constructor.
Qed.

Lemma segment_colours_come_from_rules_witness :
  let rules := [ mkRule (js "bc") (js "red") false;
                 mkRule (js "ab") (js "green") false ] in
  let segments :=
    [ {| text := js "a"; highlighted := true; color := Some (js "green") |};
      {| text := js "bc"; highlighted := true; color := Some (js "red") |};
      {| text := js "d"; highlighted := false; color := None |} ] in
  createHighlightedSegments latinUpperCase (js "abcd") (Some rules)
  = Some segments
  /\ Forall (fun s =>
               match color s with
               | Some c => highlighted s = true
                           /\ In c (List.map rule_color rules)
               | None => highlighted s = false
               end) segments.
Proof.
  intros rules segments.
  assert (H : createHighlightedSegments latinUpperCase (js "abcd") (Some rules)
              = Some segments) by reflexivity.
  split; [exact H|].
  exact (segment_colours_come_from_rules latinUpperCase (js "abcd") rules
           segments H).
Defined.

(* ================================================================== *)
(** ** A rule with an empty text *)
(* ================================================================== *)

Lemma execLoop_empty_pattern toUpperCase ignoreCase originalText :
  forall k fuel lastIndex,
    (lastIndex + k = S (List.length originalText))%nat ->
    (k < fuel)%nat ->
    execLoop toUpperCase fuel ignoreCase [] originalText lastIndex
    = Some (List.map (fun i => (i, 0%nat)) (seq lastIndex k)).
Proof.
  induction k as [|k IH]; intros fuel lastIndex Hk Hfuel;
    (destruct fuel as [|fuel]; [lia|]); simpl.
  - unfold exec.
    destruct (Nat.ltb_spec (List.length originalText) lastIndex); [|lia].
    reflexivity.
  - unfold exec.
    destruct (Nat.ltb_spec (List.length originalText) lastIndex); [lia|].
    assert (Hs : searchFrom toUpperCase ignoreCase []
                   (skipn lastIndex originalText) lastIndex
                 = Some (lastIndex, 0%nat))
      by (destruct (skipn lastIndex originalText); reflexivity).
    rewrite Hs. simpl. rewrite Nat.add_0_r.
    rewrite (IH fuel (S lastIndex)) by lia. reflexivity.
Qed.

Lemma empty_text_matches toUpperCase originalText rule :
  rule_text rule = [] ->
  ruleMatches toUpperCase originalText rule
  = Some (List.map (fun i => (i, 0%nat))
            (seq 0 (S (List.length originalText)))).
Proof.
  intros Htext. unfold ruleMatches. rewrite Htext. simpl parsePattern.
  cbv iota. apply execLoop_empty_pattern; unfold enoughFuel; lia.
Qed.

Lemma zero_length_highlights rule offsets :
  List.map (toHighlight rule) (List.map (fun i => (i, 0%nat)) offsets)
  = List.map (fun i => {| h_start := Z.of_nat i; h_end := Z.of_nat i;
                          h_color := rule_color rule |}) offsets.
Proof.
  rewrite map_map. apply map_ext. intros i.
  unfold toHighlight; simpl. f_equal. lia.
Qed.

(** X6. A rule whose text is empty matches the empty string at every
    offset of the document, the end included: the scan finds
    length + 1 matches, each of length zero, moving on by one through the
    zero-length branch each time, and pushes an empty highlight for each
    in the rule's colour. *)
Theorem empty_rule_matches_everywhere
    (toUpperCase : code_unit -> jsstring) (originalText : jsstring)
    (rule : HighlightRule) :
  rule_text rule = [] ->
  ruleMatches toUpperCase originalText rule
  = Some (List.map (fun i => (i, 0%nat))
            (seq 0 (S (List.length originalText))))
  /\ ruleHighlights toUpperCase originalText rule
     = Some (List.map (fun i => {| h_start := Z.of_nat i;
                                   h_end := Z.of_nat i;
                                   h_color := rule_color rule |})
               (seq 0 (S (List.length originalText)))).
Proof.
  intros Htext.
  pose proof (empty_text_matches toUpperCase originalText rule Htext) as Hm.
  split; [exact Hm|].
  unfold ruleHighlights. rewrite Hm. cbn [option_map].
  now rewrite zero_length_highlights.
Qed.

Lemma empty_rule_matches_everywhere_witness :
  let rule := mkRule [] (js "red") false in
  rule_text rule = []
  /\ ruleMatches latinUpperCase (js "ab") rule
     = Some [(0, 0); (1, 0); (2, 0)]%nat
  /\ createHighlightedSegments latinUpperCase (js "ab") (Some [rule])
     = Some [ {| text := []; highlighted := true; color := Some (js "red") |};
              {| text := js "a"; highlighted := false; color := None |};
              {| text := []; highlighted := true; color := Some (js "red") |};
              {| text := js "b"; highlighted := false; color := None |};
              {| text := []; highlighted := true; color := Some (js "red") |} ].
Proof.
  intros rule.
  assert (H : rule_text rule = []) by reflexivity.
  split; [exact H|].
  split; [exact (proj1 (empty_rule_matches_everywhere latinUpperCase
                          (js "ab") rule H))|].
  reflexivity.
Defined.

(* ================================================================== *)
(** ** More about validateHighlightRules *)
(* ================================================================== *)

Lemma textRejected_false rule :
  textRejected rule = false
  <-> exists s, raw_text rule = JsString s /\ trim s <> [].
Proof.
  unfold textRejected. split.
  - destruct (raw_text rule) as [| | | |s|]; simpl; try discriminate;
      try (destruct b; discriminate);
      try (destruct (n =? 0); discriminate).
    intros H. exists s. split; [reflexivity|].
    destruct (trim s); [|discriminate].
    destruct s; discriminate.
  - intros (s & -> & Hs). simpl.
    destruct s as [|c s]; [now contradiction Hs|]. simpl.
    destruct (trim (c :: s)); [now contradiction Hs|reflexivity].
Qed.

Lemma caseSensitiveRejected_false rule :
  caseSensitiveRejected rule = false
  <-> raw_caseSensitive rule = JsUndefined
      \/ exists b, raw_caseSensitive rule = JsBoolean b.
Proof.
  unfold caseSensitiveRejected. split.
  - destruct (raw_caseSensitive rule); simpl; try discriminate; eauto.
  - intros [-> | [b ->]]; reflexivity.
Qed.

Lemma accepted_true rule :
  accepted rule = true
  <-> (exists s, raw_text rule = JsString s /\ trim s <> [])
      /\ (raw_color rule = JsString (js "red")
          \/ raw_color rule = JsString (js "green")
          \/ raw_color rule = JsString (js "yellow"))
      /\ (raw_caseSensitive rule = JsUndefined
          \/ exists b, raw_caseSensitive rule = JsBoolean b).
Proof.
  unfold accepted. rewrite !andb_true_iff, !negb_true_iff.
  rewrite textRejected_false, colorRejected_false, caseSensitiveRejected_false.
  tauto.
Qed.

(** X7. [validateHighlightRules] answers isValid = true exactly when
    every rule has a string text that is not blank, one of the colours
    red, green, yellow, and a caseSensitive that is absent or a
    boolean. *)
Theorem validation_passes_exactly_when (rules : list RawRule) :
  isValid (validateHighlightRules rules) = true
  <-> Forall (fun rule =>
                (exists s, raw_text rule = JsString s /\ trim s <> [])
                /\ (raw_color rule = JsString (js "red")
                    \/ raw_color rule = JsString (js "green")
                    \/ raw_color rule = JsString (js "yellow"))
                /\ (raw_caseSensitive rule = JsUndefined
                    \/ exists b, raw_caseSensitive rule = JsBoolean b))
       rules.
Proof.
  rewrite validate_isValid. split; intros H;
    (eapply Forall_impl; [|exact H]); intros rule; apply accepted_true.
Qed.

Lemma validation_passes_exactly_when_witness :
  let rules :=
    [ mkRawRule (JsString (js " Exclusion ")) (JsString (js "yellow"))
        JsUndefined;
      mkRawRule (JsString (js "waiting period")) (JsString (js "red"))
        (JsBoolean true) ] in
  Forall (fun rule =>
            (exists s, raw_text rule = JsString s /\ trim s <> [])
            /\ (raw_color rule = JsString (js "red")
                \/ raw_color rule = JsString (js "green")
                \/ raw_color rule = JsString (js "yellow"))
            /\ (raw_caseSensitive rule = JsUndefined
                \/ exists b, raw_caseSensitive rule = JsBoolean b))
    rules
  /\ isValid (validateHighlightRules rules) = true.
Proof.
  intros rules.
  assert (H : Forall (fun rule =>
            (exists s, raw_text rule = JsString s /\ trim s <> [])
            /\ (raw_color rule = JsString (js "red")
                \/ raw_color rule = JsString (js "green")
                \/ raw_color rule = JsString (js "yellow"))
            /\ (raw_caseSensitive rule = JsUndefined
                \/ exists b, raw_caseSensitive rule = JsBoolean b))
            rules).
  { constructor; [|constructor; [|constructor]].
    - split; [eexists; split; [reflexivity|discriminate]|].
      split; [right; right; reflexivity|left; reflexivity].
    - split; [eexists; split; [reflexivity|discriminate]|].
      split; [left; reflexivity|right; eexists; reflexivity]. }
  split; [exact H|].
  exact (proj2 (validation_passes_exactly_when rules) H).
Defined.

Lemma ruleErrors_number rule index :
  Forall (fun e => errorRule e = S index) (ruleErrors rule index).
Proof.
  unfold ruleErrors.
  destruct (textRejected rule), (colorRejected rule),
    (caseSensitiveRejected rule); simpl; repeat constructor;
    simpl; lia.
Qed.

Lemma ruleErrors_count rule index :
  (List.length (ruleErrors rule index) <= 3)%nat.
Proof.
  unfold ruleErrors.
  destruct (textRejected rule), (colorRejected rule),
    (caseSensitiveRejected rule); simpl; lia.
Qed.

Lemma validateLoop_cons rule rules index :
  validateLoop (rule :: rules) index []
  = ruleErrors rule index ++ validateLoop rules (S index) [].
Proof. simpl. now rewrite validateLoop_app. Qed.

Lemma validateLoop_numbers rules :
  forall index,
    StronglySorted le (List.map errorRule (validateLoop rules index []))
    /\ Forall (fun e => (index < errorRule e <= index + List.length rules)%nat)
         (validateLoop rules index [])
    /\ (List.length (validateLoop rules index []) <= 3 * List.length rules)%nat.
Proof.
  induction rules as [|rule rules IH]; intros index.
  - simpl. repeat split; constructor.
  - rewrite validateLoop_cons.
    destruct (IH (S index)) as (IHs & IHr & IHc).
    pose proof (ruleErrors_number rule index) as Hn.
    split; [|split].
    + rewrite map_app.
      induction Hn as [|e es He Hes IHes]; simpl; [assumption|].
      constructor; [assumption|].
      apply Forall_app; split.
      * apply Forall_map. eapply Forall_impl; [|exact Hes].
        simpl. intros; lia.
      * apply Forall_map. eapply Forall_impl; [|exact IHr].
        simpl. intros; lia.
    + apply Forall_app; split.
      * eapply Forall_impl; [|exact Hn]. simpl. intros; lia.
      * eapply Forall_impl; [|exact IHr]. simpl. intros; lia.
    + pose proof (ruleErrors_count rule index) as Hc.
      rewrite length_app. simpl List.length. lia.
Qed.

Lemma validateLoop_reports rules :
  forall index k,
    In k (List.map errorRule (validateLoop rules index []))
    <-> exists i rule,
          nth_error rules i = Some rule /\ k = S (index + i)
          /\ accepted rule = false.
Proof.
  induction rules as [|rule rules IH]; intros index k.
  - simpl. split; [contradiction|].
    intros (i & rule & H & _). destruct i; discriminate.
  - rewrite validateLoop_cons, map_app, in_app_iff, IH. split.
    + intros [H | (i & r & Hi & -> & Hr)].
      * exists 0%nat, rule. split; [reflexivity|].
        apply in_map_iff in H as (e & <- & He).
        pose proof (ruleErrors_number rule index) as Hn.
        rewrite Forall_forall in Hn. split; [rewrite (Hn e He); lia|].
        destruct (accepted rule) eqn:Ha; [|reflexivity].
        apply (ruleErrors_nil rule index) in Ha. rewrite Ha in He.
        contradiction.
      * exists (S i), r. repeat split; [assumption|lia|assumption].
    + intros (i & r & Hi & -> & Hr). destruct i as [|i].
      * left. simpl in Hi. injection Hi as <-.
        destruct (ruleErrors rule index) as [|e es] eqn:E.
        -- apply (ruleErrors_nil rule index) in E. congruence.
        -- pose proof (ruleErrors_number rule index) as Hn.
           rewrite E in Hn. inversion Hn as [|? ? He _]; subst.
           simpl. left. rewrite He. lia.
      * right. exists i, r. repeat split; [assumption|lia|assumption].
Qed.

Lemma filter_other_rule k l :
  Forall (fun e => errorRule e <> k) l ->
  filter (fun e => (errorRule e =? k)%nat) l = [].
Proof.
  induction 1 as [|e l He Hl IH]; simpl; [reflexivity|].
  destruct (Nat.eqb_spec (errorRule e) k); [contradiction|exact IH].
Qed.

Lemma filter_length_le {A} (f : A -> bool) l :
  (List.length (filter f l) <= List.length l)%nat.
Proof.
  induction l as [|x l IH]; simpl; [lia|]. destruct (f x); simpl; lia.
Qed.

Lemma validateLoop_per_rule rules :
  forall index k,
    (List.length (filter (fun e => (errorRule e =? k)%nat)
                    (validateLoop rules index [])) <= 3)%nat.
Proof.
  induction rules as [|rule rules IH]; intros index k.
  - simpl. lia.
  - rewrite validateLoop_cons, filter_app, length_app.
    destruct (Nat.eq_dec k (S index)) as [->|Hne].
    + rewrite (filter_other_rule (S index) (validateLoop rules (S index) [])).
      * pose proof (filter_length_le
                      (fun e => (errorRule e =? S index)%nat)
                      (ruleErrors rule index)).
        pose proof (ruleErrors_count rule index). simpl. lia.
      * destruct (validateLoop_numbers rules (S index)) as (_ & Hr & _).
        eapply Forall_impl; [|exact Hr]. simpl. intros; lia.
    + rewrite (filter_other_rule k (ruleErrors rule index)).
      * simpl. apply IH.
      * eapply Forall_impl; [|apply ruleErrors_number]. simpl. intros; lia.
Qed.

(** X8. The errors of [validateHighlightRules] come in the order of the
    rules, numbered from 1: the rule numbers never decrease along the
    list, rule number k is named exactly when the k-th rule fails one of
    the three checks, and no rule has more than three errors: for every
    k, at most three of the errors name rule k. *)
Theorem validation_errors_follow_the_rules (rules : list RawRule) :
  let reported := errors (validateHighlightRules rules) in
  StronglySorted le (List.map errorRule reported)
  /\ (forall k,
        In k (List.map errorRule reported)
        <-> exists rule,
              (1 <= k)%nat /\ nth_error rules (k - 1) = Some rule
              /\ accepted rule = false)
  /\ (forall k,
        (List.length (filter (fun e => (errorRule e =? k)%nat) reported)
         <= 3)%nat)
  /\ (List.length reported <= 3 * List.length rules)%nat.
Proof.
  unfold validateHighlightRules; simpl.
  destruct (validateLoop_numbers rules 0) as (Hs & _ & Hc).
  split; [exact Hs|]. split; [|split; [apply validateLoop_per_rule|exact Hc]].
  intros k. rewrite validateLoop_reports. split.
  - intros (i & rule & Hi & -> & Hr). exists rule.
    simpl. rewrite Nat.sub_0_r. repeat split; [lia|assumption|assumption].
  - intros (rule & Hk & Hi & Hr). exists (k - 1)%nat, rule.
    repeat split; [assumption|simpl; lia|assumption].
Qed.

Lemma validation_errors_follow_the_rules_witness :
  let rules :=
    [ mkRawRule (JsString (js "ok")) (JsString (js "red")) JsUndefined;
      mkRawRule (JsString (js "  ")) (JsString (js "#e74c3c")) (JsNumber 1) ] in
  errors (validateHighlightRules rules)
  = [TextRequired 2; ColorNotListed 2; CaseSensitiveNotBoolean 2]
  /\ (In 2%nat (List.map errorRule (errors (validateHighlightRules rules)))
      <-> exists rule,
            (1 <= 2)%nat /\ nth_error rules (2 - 1) = Some rule
            /\ accepted rule = false).
Proof.
  intros rules. split; [reflexivity|].
  exact (proj1 (proj2 (validation_errors_follow_the_rules rules)) 2%nat).
Defined.

(* ================================================================== *)
(** ** Grouping the items of a page into lines *)
(* ================================================================== *)

Lemma mathRound_near q :
  (inject_Z (mathRound q) - (1 # 2) <= q)%Q
  /\ (q < inject_Z (mathRound q) + (1 # 2))%Q.
Proof.
  unfold mathRound.
  pose proof (Qfloor_le (q + (1 # 2))) as Hle.
  pose proof (Qlt_floor (q + (1 # 2))) as Hlt.
  rewrite inject_Z_plus in Hlt. change (inject_Z 1) with 1%Q in Hlt.
  split; lra.
Qed.

Lemma lineKeyOf_near p :
  (inject_Z (lineKeyOf p) - 1 <= p_y p)%Q
  /\ (p_y p < inject_Z (lineKeyOf p) + 1)%Q.
Proof.
  unfold lineKeyOf.
  destruct (mathRound_near (p_y p / 2)) as [Hle Hlt].
  rewrite inject_Z_mult. change (inject_Z 2) with 2%Q.
  assert (Hhalf : (p_y p == 2 * (p_y p / 2))%Q) by field.
  set (half := (p_y p / 2)%Q) in *. clearbody half.
  set (k := inject_Z (mathRound half)) in *. clearbody k.
  split; lra.
Qed.

Lemma linePush_keyed p lineMap :
  keyed lineMap -> keyed (linePush (lineKeyOf p) p lineMap).
Proof.
  unfold keyed. induction 1 as [|[k items] lineMap Hk Hm IH]; simpl.
  - repeat constructor.
  - destruct (Z.eqb_spec k (lineKeyOf p)) as [->|Hne].
    + constructor; [|assumption]. simpl in *.
      apply Forall_app; split; [assumption|now constructor].
    + constructor; assumption.
Qed.

Lemma groupStep_placedOf lineMap item :
  groupStep lineMap item
  = match placedOf item with
    | [] => lineMap
    | p :: _ => linePush (lineKeyOf p) p lineMap
    end.
Proof.
  unfold groupStep, placedOf.
  destruct (item_str item) as [|c s]; [reflexivity|].
  destruct (item_transform item) as [[x y]|]; reflexivity.
Qed.

Lemma groupStep_keyed items :
  forall lineMap, keyed lineMap -> keyed (fold_left groupStep items lineMap).
Proof.
  induction items as [|item items IH]; intros lineMap Hk; simpl.
  - assumption.
  - apply IH. rewrite groupStep_placedOf.
    destruct (placedOf item); [assumption|now apply linePush_keyed].
Qed.

(** X9. Items that share a line are close in y: an item is filed under a
    key within one unit of its y, so two items filed under the same key
    of [lineMap] have y coordinates less than two units apart. *)
Theorem items_of_a_line_are_close (items : list TextItem)
    (entry : Z * list Placed) (p q : Placed) :
  In entry (fold_left groupStep items []) ->
  In p (snd entry) -> In q (snd entry) ->
  (inject_Z (fst entry) - 1 <= p_y p)%Q
  /\ (p_y p < inject_Z (fst entry) + 1)%Q
  /\ (p_y p - p_y q < 2)%Q /\ (p_y q - p_y p < 2)%Q.
Proof.
  intros He Hp Hq.
  pose proof (groupStep_keyed items [] (Forall_nil _)) as Hk.
  unfold keyed in Hk. rewrite Forall_forall in Hk. specialize (Hk entry He).
  rewrite Forall_forall in Hk.
  pose proof (Hk p Hp) as Kp. pose proof (Hk q Hq) as Kq.
  destruct (lineKeyOf_near p) as [P1 P2].
  destruct (lineKeyOf_near q) as [Q1 Q2].
  rewrite Kp in P1, P2. rewrite Kq in Q1, Q2.
  repeat split; lra.
Qed.

Lemma items_of_a_line_are_close_witness :
  let items := [ mkTextItem (js "Total") (Some (72, 100)%Q) 30%Q;
                 mkTextItem (js "due") (Some (110, 1009 # 10)%Q) 20%Q;
                 mkTextItem (js "Page 2") (Some (72, 40)%Q) 30%Q ] in
  let p := mkPlaced (js "Total") 72 100 30 in
  let q := mkPlaced (js "due") 110 (1009 # 10) 20 in
  let entry := (100, [p; q]) in
  In entry (fold_left groupStep items [])
  /\ (p_y p - p_y q < 2)%Q /\ (p_y q - p_y p < 2)%Q.
Proof.
  intros items p q entry.
  assert (He : In entry (fold_left groupStep items [])) by (left; reflexivity).
  assert (Hp : In p (snd entry)) by (left; reflexivity).
  assert (Hq : In q (snd entry)) by (right; left; reflexivity).
  split; [exact He|].
  exact (proj2 (proj2 (items_of_a_line_are_close items entry p q He Hp Hq))).
Defined.

Lemma sortInsert_Permutation {A} (leb : A -> A -> bool) x l :
  Permutation (sortInsert leb x l) (x :: l).
Proof.
  induction l as [|y l IH]; simpl; [reflexivity|].
  destruct (leb x y); [reflexivity|].
  rewrite IH. apply perm_swap.
Qed.

Lemma stableSort_Permutation {A} (leb : A -> A -> bool) l :
  Permutation (stableSort leb l) l.
Proof.
  induction l as [|x l IH]; simpl; [reflexivity|].
  rewrite sortInsert_Permutation. now constructor.
Qed.

Lemma sortLines_descending lineMap :
  StronglySorted (fun a b : Z * list Placed => fst b <= fst a)
    (sortLines lineMap).
Proof.
  unfold sortLines.
  induction lineMap as [|x l IH]; simpl; [constructor|].
  induction IH as [|y l' Hs IH' Hf]; simpl.
  - repeat constructor.
  - destruct (Z.leb_spec (fst y) (fst x)) as [Hle|Hgt].
    + constructor; [now constructor|].
      constructor; [assumption|].
      eapply Forall_impl; [|exact Hf]. simpl; intros; lia.
    + constructor; [assumption|].
      apply sortInsert_Forall; [lia|assumption].
Qed.

Lemma linePush_keys lineKey p lineMap :
  NoDup (List.map fst lineMap) ->
  NoDup (List.map fst (linePush lineKey p lineMap))
  /\ forall k, In k (List.map fst (linePush lineKey p lineMap))
               <-> k = lineKey \/ In k (List.map fst lineMap).
Proof.
  induction lineMap as [|[k0 items] lineMap IH]; simpl; intros Hnd.
  - split; [repeat constructor; auto|]. intros k. intuition.
  - inversion Hnd as [|? ? Hnot Hnd']; subst.
    destruct (Z.eqb_spec k0 lineKey) as [->|Hne]; simpl.
    + split; [assumption|]. intros k. intuition.
    + destruct (IH Hnd') as [IH1 IH2]. split.
      * constructor; [|assumption]. rewrite IH2. intuition.
      * intros k. rewrite IH2. intuition.
Qed.

Lemma groupStep_keys items :
  forall lineMap,
    NoDup (List.map fst lineMap) ->
    NoDup (List.map fst (fold_left groupStep items lineMap)).
Proof.
  induction items as [|item items IH]; intros lineMap Hnd; simpl.
  - assumption.
  - apply IH. rewrite groupStep_placedOf.
    destruct (placedOf item); [assumption|now apply linePush_keys].
Qed.

(** X10. The lines of a page come strictly top down: in the sorted
    entries of [lineMap] every key is greater than all the keys after it,
    so no two lines share a key. *)
Theorem lines_run_top_down (items : list TextItem) :
  StronglySorted (fun a b : Z * list Placed => fst a > fst b)
    (sortLines (fold_left groupStep items [])).
Proof.
  pose proof (groupStep_keys items [] (NoDup_nil _)) as Hnd.
  assert (Hnd' : NoDup (List.map fst (sortLines (fold_left groupStep items [])))).
  { eapply Permutation_NoDup; [|exact Hnd].
    apply Permutation_map. symmetry. apply stableSort_Permutation. }
  pose proof (sortLines_descending (fold_left groupStep items [])) as Hs.
  induction Hs as [|x l Hs IH Hf]; [constructor|].
  simpl in Hnd'. inversion Hnd' as [|? ? Hnot Hl]; subst.
  constructor; [now apply IH|].
  rewrite Forall_forall in *. intros y Hy.
  specialize (Hf y Hy).
  assert (fst y <> fst x); [|lia].
  intros E. apply Hnot. rewrite <- E. now apply in_map.
Qed.

Lemma linePush_items lineKey p lineMap :
  Permutation (List.concat (List.map snd (linePush lineKey p lineMap)))
    (p :: List.concat (List.map snd lineMap)).
Proof.
  induction lineMap as [|[k items] lineMap IH]; simpl.
  - reflexivity.
  - destruct (k =? lineKey); simpl.
    + rewrite <- app_assoc. symmetry. apply Permutation_middle.
    + rewrite IH. symmetry. apply Permutation_middle.
Qed.

Lemma groupStep_items items :
  forall lineMap,
    Permutation
      (List.concat (List.map snd (fold_left groupStep items lineMap)))
      (List.concat (List.map snd lineMap) ++ flat_map placedOf items).
Proof.
  induction items as [|item items IH]; intros lineMap; simpl.
  - now rewrite app_nil_r.
  - rewrite IH, groupStep_placedOf.
    assert (Hone : placedOf item = []
                   \/ exists p, placedOf item = [p]).
    { unfold placedOf. destruct (item_str item); [now left|].
      destruct (item_transform item) as [[x y]|]; [right; eauto|now left]. }
    destruct Hone as [-> | [p ->]]; simpl; [reflexivity|].
    rewrite linePush_items. simpl. apply Permutation_middle.
Qed.

(** X11. No item is lost or doubled: the items that make up the lines
    of a page, each line in its order of x, are exactly the items of the
    page that have a text and a transform, each once. *)
Theorem every_item_is_on_one_line (items : list TextItem) :
  Permutation
    (List.concat
       (List.map (fun entry => sortItems (snd entry))
          (sortLines (fold_left groupStep items []))))
    (flat_map placedOf items).
Proof.
  transitivity
    (List.concat (List.map snd (sortLines (fold_left groupStep items [])))).
  - induction (sortLines (fold_left groupStep items [])) as [|e l IH];
      simpl; [reflexivity|].
    apply Permutation_app; [apply stableSort_Permutation|assumption].
  - transitivity (List.concat (List.map snd (fold_left groupStep items []))).
    + assert (Hc : forall l1 l2 : LineMap,
                 Permutation l1 l2 ->
                 Permutation (List.concat (List.map snd l1))
                   (List.concat (List.map snd l2))).
      { induction 1; simpl.
        - reflexivity.
        - now apply Permutation_app_head.
        - rewrite !app_assoc. apply Permutation_app_tail.
          apply Permutation_app_comm.
        - etransitivity; eassumption. }
      apply Hc. apply stableSort_Permutation.
    + apply (groupStep_items items []).
Qed.

Lemma spaces_filtered n : filter notSpace (spaces n) = [].
Proof.
  unfold spaces. induction (Z.to_nat n) as [|k IH]; simpl; [reflexivity|].
  exact IH.
Qed.

Lemma gapSeparator_filtered gap : filter notSpace (gapSeparator gap) = [].
Proof.
  unfold gapSeparator.
  destruct (Qgt_bool gap 5); [apply spaces_filtered|].
  destruct (Qgt_bool gap 1); reflexivity.
Qed.

Lemma indentation_filtered x : filter notSpace (indentation x) = [].
Proof.
  unfold indentation.
  destruct (mathFloor (numDiv x 6) >? 0); [apply spaces_filtered|reflexivity].
Qed.

Lemma afterFirst_filtered items :
  forall previous,
    filter notSpace (afterFirst previous items)
    = filter notSpace (List.concat (List.map p_text items)).
Proof.
  induction items as [|item items IH]; intros previous; simpl.
  - reflexivity.
  - rewrite !filter_app, gapSeparator_filtered, IH. reflexivity.
Qed.

Lemma sortItems_ascending items :
  StronglySorted (fun a b => (p_x a <= p_x b)%Q) (sortItems items).
Proof.
  unfold sortItems.
  induction items as [|x l IH]; simpl; [constructor|].
  induction IH as [|y l' Hs IH' Hf]; simpl.
  - repeat constructor.
  - destruct (Qle_bool (p_x x) (p_x y)) eqn:E.
    + apply Qle_bool_iff in E.
      constructor; [now constructor|].
      constructor; [assumption|].
      eapply Forall_impl; [|exact Hf]. simpl. intros z Hz.
      eapply Qle_trans; eassumption.
    + constructor; [assumption|].
      apply sortInsert_Forall; [|assumption].
      apply Qlt_le_weak, Qnot_le_lt. rewrite <- Qle_bool_iff. congruence.
Qed.

(** X12. A line only adds spaces: the items of a line are taken in
    order of x (a rearrangement of the items in which no item comes after
    one with a greater x), and apart from space characters the text of
    the line is their texts in that order, one after the other; no
    character of an item is dropped or changed, and nothing but spaces
    comes between or before them. *)
Theorem line_only_adds_spaces (items : list Placed) :
  Permutation (sortItems items) items
  /\ StronglySorted (fun a b => (p_x a <= p_x b)%Q) (sortItems items)
  /\ filter notSpace (lineTextOf items)
     = filter notSpace (List.concat (List.map p_text (sortItems items))).
Proof.
  split; [apply stableSort_Permutation|].
  split; [apply sortItems_ascending|].
  rewrite lineTextOf_lineByGaps. unfold lineByGaps.
  destruct (sortItems items) as [|first rest]; [reflexivity|].
  simpl. rewrite !filter_app, indentation_filtered, afterFirst_filtered.
  reflexivity.
Qed.

(* ================================================================== *)
(** ** The sentences of an analysis response *)
(* ================================================================== *)

Lemma truthyString_test v :
  negb (toBoolean v) || negb (isString v) = false <-> truthyString v.
Proof.
  unfold truthyString. split.
  - destruct v as [| | | |s|]; simpl; try discriminate;
      try (destruct b; discriminate);
      try (destruct (n =? 0); discriminate).
    destruct s; [discriminate|]. intros _. eexists; split; [reflexivity|discriminate].
  - intros (s & -> & Hs). destruct s; [now contradiction Hs|reflexivity].
Qed.

Lemma truthyString_dec v :
  {negb (toBoolean v) || negb (isString v) = false}
  + {negb (toBoolean v) || negb (isString v) = true}.
Proof. destruct (negb (toBoolean v) || negb (isString v)); auto. Qed.

Lemma normalizeItem_inr item index s :
  normalizeItem item index = inr s
  <-> exists raw c,
        item_sentence item = JsString raw /\ raw <> []
        /\ item_color item = JsString c /\ c <> []
        /\ s = {| sentence := trim raw; sentence_color := c;
                  riskLevel := riskLevelOf (item_riskLevel item) c |}.
Proof.
  unfold normalizeItem. split.
  - destruct (truthyString_dec (item_sentence item)) as [Hs|Hs]; rewrite Hs;
      [|discriminate].
    destruct (truthyString_dec (item_color item)) as [Hc|Hc]; rewrite Hc;
      [|discriminate].
    apply truthyString_test in Hs as (raw & Hraw & Hne).
    apply truthyString_test in Hc as (c & Hcol & Hcne).
    rewrite Hraw, Hcol. intros [= <-]. exists raw, c. repeat split; assumption.
  - intros (raw & c & Hraw & Hne & Hcol & Hcne & ->).
    assert (Hs : truthyString (item_sentence item)) by (exists raw; auto).
    assert (Hc : truthyString (item_color item)) by (exists c; auto).
    apply truthyString_test in Hs. apply truthyString_test in Hc.
    rewrite Hs, Hc, Hraw, Hcol. reflexivity.
Qed.


Lemma riskLevelOf_truthy itemRiskLevel itemColor :
  toBoolean (riskLevelOf itemRiskLevel itemColor) = true.
Proof.
  unfold riskLevelOf. destruct (toBoolean itemRiskLevel) eqn:E; [exact E|].
  destruct (jsstring_eqb itemColor (js "#e74c3c")); [reflexivity|].
  destruct (jsstring_eqb itemColor (js "#f39c12")); reflexivity.
Qed.

Lemma normalizeFrom_inr items :
  forall index ss,
    normalizeFrom items index = inr ss ->
    List.length ss = List.length items
    /\ forall i item,
         nth_error items i = Some item ->
         exists s, nth_error ss i = Some s
                   /\ normalizeItem item (index + i) = inr s.
Proof.
  induction items as [|item items IH]; intros index ss; simpl.
  - intros [= <-]. split; [reflexivity|]. intros [|i] it H; discriminate.
  - destruct (normalizeItem item index) as [e|s] eqn:Es; [discriminate|].
    destruct (normalizeFrom items (S index)) as [e|ss'] eqn:Er; [discriminate|].
    intros [= <-]. destruct (IH (S index) ss' Er) as [Hlen Hnth].
    split; [simpl; now rewrite Hlen|].
    intros [|i] it Hit; simpl in Hit.
    + injection Hit as <-. exists s. rewrite Nat.add_0_r. now split.
    + destruct (Hnth i it Hit) as (s' & Hs' & Hn). exists s'. split; [exact Hs'|].
      now replace (index + S i)%nat with (S index + i)%nat by lia.
Qed.


(** X13. When the normalisation of the sentences of a response
    succeeds, it returns one sentence per entry in the same order; every
    entry had a non-empty string as sentence and as colour; the sentence
    is the trimmed one, the colour is unchanged, and the risk level is
    never missing: the given one, or one derived from the colour. *)
Theorem normalized_sentences_mirror_the_response
    (items : list ResponseItem) (sentences : list AnalyzedSentence) :
  normalizeSentences items = inr sentences ->
  List.length sentences = List.length items
  /\ forall i item,
       nth_error items i = Some item ->
       exists raw c,
         item_sentence item = JsString raw /\ raw <> []
         /\ item_color item = JsString c /\ c <> []
         /\ nth_error sentences i
            = Some {| sentence := trim raw; sentence_color := c;
                      riskLevel := riskLevelOf (item_riskLevel item) c |}
         /\ toBoolean (riskLevelOf (item_riskLevel item) c) = true.
Proof.
  intros H. apply normalizeFrom_inr in H as [Hlen Hnth].
  split; [exact Hlen|].
  intros i item Hi. destruct (Hnth i item Hi) as (s & Hs & Hn).
  apply normalizeItem_inr in Hn as (raw & c & Hraw & Hne & Hcol & Hcne & ->).
  exists raw, c. repeat split; try assumption. apply riskLevelOf_truthy.
Qed.

Lemma normalized_sentences_mirror_the_response_witness :
  let items :=
    [ mkResponseItem (JsString (js "  Claims are excluded. "))
        (JsString (js "#e74c3c")) JsUndefined;
      mkResponseItem (JsString (js "You may appeal."))
        (JsString (js "#27ae60")) (JsString (js "favorable")) ] in
  let sentences :=
    [ mkAnalyzedSentence (js "Claims are excluded.") (js "#e74c3c")
        (JsString (js "high"));
      mkAnalyzedSentence (js "You may appeal.") (js "#27ae60")
        (JsString (js "favorable")) ] in
  normalizeSentences items = inr sentences
  /\ List.length sentences = List.length items.
Proof.
  intros items sentences.
  assert (H : normalizeSentences items = inr sentences) by reflexivity.
  split; [exact H|].
  exact (proj1 (normalized_sentences_mirror_the_response items sentences H)).
Defined.



Lemma trimStart_blank run : allWhiteSpace run -> trimStart run = [].
Proof.
  induction 1 as [|c run Hc Hrun IH]; simpl; [reflexivity|]. now rewrite Hc.
Qed.

Lemma trim_blank run : allWhiteSpace run -> trim run = [].
Proof. intros H. unfold trim. now rewrite trimStart_blank. Qed.

(** X15. A sentence of nothing but whitespace gets through the
    normalisation, which tests it before it trims it; it becomes a rule
    with an empty text, and that rule puts an empty highlight at every
    offset of the document. *)
Theorem blank_sentence_becomes_empty_rule
    (toUpperCase : code_unit -> jsstring) (originalText : jsstring)
    (run c : jsstring) (itemRiskLevel : JsValue) :
  run <> [] -> allWhiteSpace run -> c <> [] ->
  exists s,
    normalizeSentences
      [ mkResponseItem (JsString run) (JsString c) itemRiskLevel ]
    = inr [s]
    /\ rule_text (sentenceToRule s) = []
    /\ ruleHighlights toUpperCase originalText (sentenceToRule s)
       = Some (List.map (fun i => {| h_start := Z.of_nat i;
                                     h_end := Z.of_nat i;
                                     h_color := c |})
                 (seq 0 (S (List.length originalText)))).
Proof.
  intros Hrun Hblank Hc.
  exists {| sentence := trim run; sentence_color := c;
            riskLevel := riskLevelOf itemRiskLevel c |}.
  split.
  - unfold normalizeSentences. cbn [normalizeFrom].
    assert (Hn : normalizeItem
                   (mkResponseItem (JsString run) (JsString c) itemRiskLevel) 0
                 = inr {| sentence := trim run; sentence_color := c;
                          riskLevel := riskLevelOf itemRiskLevel c |}).
    { apply normalizeItem_inr. exists run, c. repeat split; assumption. }
    now rewrite Hn.
  - assert (Ht : rule_text
                   (sentenceToRule
                      {| sentence := trim run; sentence_color := c;
                         riskLevel := riskLevelOf itemRiskLevel c |}) = [])
      by (simpl; now apply trim_blank).
    split; [exact Ht|].
    unfold ruleHighlights.
    rewrite (empty_text_matches toUpperCase originalText _ Ht).
    cbn [option_map]. now rewrite zero_length_highlights.
Qed.

Lemma blank_sentence_becomes_empty_rule_witness :
  js "  " <> [] /\ allWhiteSpace (js "  ") /\ js "#f39c12" <> []
  /\ exists s,
       normalizeSentences
         [ mkResponseItem (JsString (js "  ")) (JsString (js "#f39c12"))
             JsUndefined ]
       = inr [s]
       /\ rule_text (sentenceToRule s) = []
       /\ ruleHighlights latinUpperCase (js "ab") (sentenceToRule s)
          = Some (List.map (fun i => {| h_start := Z.of_nat i;
                                        h_end := Z.of_nat i;
                                        h_color := js "#f39c12" |})
                    (seq 0 (S (List.length (js "ab"))))).
Proof.
  assert (H1 : js "  " <> []) by discriminate.
  assert (H2 : allWhiteSpace (js "  ")) by (repeat constructor).
  assert (H3 : js "#f39c12" <> []) by discriminate.
  split; [exact H1|]. split; [exact H2|]. split; [exact H3|].
  exact (blank_sentence_becomes_empty_rule latinUpperCase (js "ab")
           (js "  ") (js "#f39c12") JsUndefined H1 H2 H3).
Defined.

(* ================================================================== *)
(** ** Replacing a highlighted sentence *)
(* ================================================================== *)

Lemma positionOfSegment_sum segments :
  forall currentPosition,
    fold_left (fun position s => position + strlen (text s)) segments
      currentPosition
    = currentPosition + strlen (segmentsText segments).
Proof.
  induction segments as [|s segments IH]; intros currentPosition; simpl.
  - unfold segmentsText, strlen. simpl. lia.
  - rewrite IH. unfold segmentsText, strlen. simpl.
    rewrite length_app. lia.
Qed.

Lemma substring_prefix a b : substring (a ++ b) 0 (strlen a) = a.
Proof.
  unfold substring.
  assert (strlen a <= strlen (a ++ b))
    by (unfold strlen; rewrite length_app; lia).
  assert (0 <= strlen a) by (unfold strlen; lia).
  assert (clamp (strlen (a ++ b)) 0 = 0) as -> by (unfold clamp; lia).
  assert (clamp (strlen (a ++ b)) (strlen a) = strlen a) as ->
    by (unfold clamp; lia).
  rewrite Z.min_l, Z.max_r by lia.
  simpl. rewrite Z.sub_0_r. unfold strlen. rewrite Nat2Z.id.
  rewrite firstn_app, Nat.sub_diag, firstn_all. simpl. apply app_nil_r.
Qed.

Lemma substringFrom_suffix a b : substringFrom (a ++ b) (strlen a) = b.
Proof.
  unfold substringFrom, substring.
  assert (strlen (a ++ b) = strlen a + strlen b)
    by (unfold strlen; rewrite length_app; lia).
  assert (0 <= strlen a) by (unfold strlen; lia).
  assert (0 <= strlen b) by (unfold strlen; lia).
  assert (clamp (strlen (a ++ b)) (strlen a) = strlen a) as ->
    by (unfold clamp; lia).
  assert (clamp (strlen (a ++ b)) (strlen (a ++ b)) = strlen (a ++ b)) as ->
    by (unfold clamp; lia).
  rewrite Z.min_l, Z.max_r by lia.
  replace (Z.to_nat (strlen (a ++ b) - strlen a)) with (List.length b)
    by (unfold strlen in *; lia).
  unfold strlen. rewrite Nat2Z.id, skipn_app, skipn_all, Nat.sub_diag. simpl.
  apply firstn_all.
Qed.

Lemma segmentsText_app l1 l2 :
  segmentsText (l1 ++ l2) = segmentsText l1 ++ segmentsText l2.
Proof. unfold segmentsText. now rewrite map_app, concat_app. Qed.

Lemma handleOptionSelect_replaces displayText segments i seg optionText :
  segmentsText segments = displayText ->
  nth_error segments i = Some seg ->
  handleOptionSelect displayText segments (text seg) optionText i
  = segmentsText (firstn i segments) ++ optionText
    ++ segmentsText (skipn (S i) segments).
Proof.
  intros Htext Hseg.
  assert (Hsplit : segments = firstn i segments ++ seg :: skipn (S i) segments).
  { clear Htext. revert i Hseg.
    induction segments as [|s l IH]; intros [|i] H; try discriminate; simpl.
    - now injection H as ->.
    - f_equal. now apply IH. }
  unfold handleOptionSelect, positionOfSegment.
  rewrite positionOfSegment_sum, Z.add_0_l.
  set (before := segmentsText (firstn i segments)).
  set (after := segmentsText (skipn (S i) segments)).
  assert (Hdoc : displayText = before ++ text seg ++ after).
  { rewrite <- Htext, Hsplit at 1. rewrite segmentsText_app.
    unfold before, after, segmentsText at 2. simpl. reflexivity. }
  rewrite Hdoc. rewrite substring_prefix. f_equal. f_equal.
  rewrite app_assoc.
  replace (strlen before + strlen (text seg))
    with (strlen (before ++ text seg))
    by (unfold strlen; rewrite length_app; lia).
  apply substringFrom_suffix.
Qed.

(** X16. Choosing an alternative for the highlighted segment at some
    index of the segments of the displayed text gives the displayed text
    with exactly that segment replaced: the texts of the segments before
    it, the alternative, the texts of the segments after it. *)
Theorem option_replaces_exactly_its_segment
    (toUpperCase : code_unit -> jsstring) (displayText : jsstring)
    (highlightRules : option (list HighlightRule))
    (segments : list Segment) (segmentIndex : nat) (segment : Segment)
    (optionText : jsstring) :
  createHighlightedSegments toUpperCase displayText highlightRules
  = Some segments ->
  nth_error segments segmentIndex = Some segment ->
  handleOptionSelect displayText segments (text segment) optionText
    segmentIndex
  = List.concat (List.map text (firstn segmentIndex segments))
    ++ optionText
    ++ List.concat (List.map text (skipn (S segmentIndex) segments)).
Proof.
  intros Hsegs Hseg.
  destruct (createHighlightedSegments_total toUpperCase displayText
              highlightRules) as (segments' & Hs' & Htext).
  rewrite Hsegs in Hs'. injection Hs' as <-.
  exact (handleOptionSelect_replaces displayText segments segmentIndex
           segment optionText Htext Hseg).
Qed.

Lemma option_replaces_exactly_its_segment_witness :
  let rules := Some [ mkRule (js "not covered") (js "#e74c3c") false ] in
  let segments :=
    [ {| text := js "Floods are "; highlighted := false; color := None |};
      {| text := js "not covered"; highlighted := true;
         color := Some (js "#e74c3c") |};
      {| text := js "."; highlighted := false; color := None |} ] in
  createHighlightedSegments latinUpperCase (js "Floods are not covered.") rules
  = Some segments
  /\ handleOptionSelect (js "Floods are not covered.") segments
       (js "not covered") (js "covered") 1
     = js "Floods are covered.".
Proof.
  intros rules segments.
  assert (H : createHighlightedSegments latinUpperCase
                (js "Floods are not covered.") rules = Some segments)
    by reflexivity.
  split; [exact H|].
  exact (option_replaces_exactly_its_segment latinUpperCase
           (js "Floods are not covered.") rules segments 1
           {| text := js "not covered"; highlighted := true;
              color := Some (js "#e74c3c") |}
           (js "covered") H eq_refl).
Defined.

(* ================================================================== *)
(** ** The rule configuration panel *)
(* ================================================================== *)

Lemma accepted_toRawRule rule :
  accepted (toRawRule rule) = true <-> configurable rule.
Proof.
  rewrite accepted_true. unfold configurable, toRawRule, validColors; simpl.
  split.
  - intros ((s & [= <-] & Hs) & Hc & _). split; [assumption|].
    destruct Hc as [[= ->] | [[= ->] | [= ->]]]; auto.
  - intros [Hs Hc]. split; [eauto|]. split; [|right; eauto].
    destruct Hc as [<- | [<- | [<- | []]]]; auto.
Qed.

Lemma validRules_configurable rules :
  validRules rules <-> Forall configurable rules.
Proof.
  unfold validRules. rewrite validate_isValid, Forall_map.
  split; intros H; (eapply Forall_impl; [|exact H]); intros rule;
    apply accepted_toRawRule.
Qed.

Lemma filterIndexFrom_Forall {A} (P : A -> Prop) index l :
  forall from, Forall P l -> Forall P (filterIndexFrom from index l).
Proof.
  induction l as [|x l IH]; intros from H; simpl; [constructor|].
  inversion H; subst.
  destruct (from =? index)%nat; [|constructor; [assumption|]]; now apply IH.
Qed.


Lemma filterIndexFrom_past {A} index (l : list A) :
  forall from, (index < from)%nat -> filterIndexFrom from index l = l.
Proof.
  induction l as [|x l IH]; intros from Hlt; simpl; [reflexivity|].
  destruct (Nat.eqb_spec from index); [lia|].
  f_equal. apply IH. lia.
Qed.

Lemma filterIndexFrom_split {A} index (l : list A) :
  forall from, (from <= index)%nat ->
    filterIndexFrom from index l
    = firstn (index - from) l ++ skipn (S (index - from)) l.
Proof.
  induction l as [|x l IH]; intros from Hle; simpl.
  - now rewrite firstn_nil.
  - destruct (Nat.eqb_spec from index) as [->|Hne].
    + rewrite Nat.sub_diag. simpl. apply filterIndexFrom_past. lia.
    + rewrite IH by lia.
      replace (index - from)%nat with (S (index - S from)) by lia.
      reflexivity.
Qed.

Lemma recolorFrom_Forall (P : HighlightRule -> Prop) index newColor l :
  (forall rule, P rule ->
     P {| rule_text := rule_text rule; rule_color := newColor;
          caseSensitive := caseSensitive rule |}) ->
  forall from, Forall P l -> Forall P (recolorFrom from index newColor l).
Proof.
  intros Hp. induction l as [|x l IH]; intros from H; simpl; [constructor|].
  inversion H; subst. constructor; [|now apply IH].
  destruct (from =? index)%nat; [now apply Hp|assumption].
Qed.

(** X17. The panel keeps its rules valid: what [handleAddRule] hands on
    is the old rules with the new one at the end and passes
    [validateHighlightRules]; removing a rule from rules that pass, or
    giving one of them another of the three colours, leaves rules that
    pass. *)
Theorem configured_rules_stay_valid :
  (forall rules newRule updatedRules,
     handleAddRule rules newRule = RulesChanged updatedRules ->
     updatedRules = rules ++ [newRule] /\ validRules updatedRules)
  /\ (forall rules index,
        validRules rules -> validRules (handleRemoveRule rules index))
  /\ (forall rules index newColor,
        validRules rules -> In newColor validColors ->
        validRules (handleColorChange rules index newColor)).
Proof.
  split; [|split].
  - intros rules newRule updatedRules. unfold handleAddRule.
    destruct (trim (rule_text newRule)); [discriminate|].
    destruct (isValid (validateHighlightRules
                         (List.map toRawRule (rules ++ [newRule])))) eqn:E;
      simpl; [|discriminate].
    intros [= <-]. split; [reflexivity|exact E].
  - intros rules index H. apply validRules_configurable in H.
    apply validRules_configurable. now apply filterIndexFrom_Forall.
  - intros rules index newColor H Hc. apply validRules_configurable in H.
    apply validRules_configurable. apply recolorFrom_Forall; [|assumption].
    intros rule [Ht _]. split; assumption.
Qed.

Lemma configured_rules_stay_valid_witness :
  let rules := [ mkRule (js "excluded") (js "red") false;
                 mkRule (js "waiting period") (js "yellow") true ] in
  let newRule := mkRule (js "appeal") (js "green") false in
  handleAddRule rules newRule = RulesChanged (rules ++ [newRule])
  /\ validRules (rules ++ [newRule])
  /\ validRules (handleRemoveRule (rules ++ [newRule]) 0)
  /\ In (js "green") validColors
  /\ validRules (handleColorChange (rules ++ [newRule]) 1 (js "green")).
Proof.
  intros rules newRule.
  destruct configured_rules_stay_valid as (Hadd & Hremove & Hcolor).
  assert (H : handleAddRule rules newRule = RulesChanged (rules ++ [newRule]))
    by reflexivity.
  assert (Hv : validRules (rules ++ [newRule]))
    by exact (proj2 (Hadd rules newRule _ H)).
  assert (Hg : In (js "green") validColors) by (right; left; reflexivity).
  split; [exact H|]. split; [exact Hv|].
  split; [exact (Hremove _ 0%nat Hv)|].
  split; [exact Hg|exact (Hcolor _ 1%nat _ Hv Hg)].
Defined.

(** X18. What [handleAddRule] answers: a blank text is refused first
    with "Please enter text to highlight"; otherwise the rule is added
    when every rule, old and new, has a text that is not blank and one of
    the three colours, and when one of them has not, nothing is added and
    the first error of the validation is shown, which may concern an old
    rule. *)
Theorem add_rule_outcomes (rules : list HighlightRule) (newRule : HighlightRule) :
  (trim (rule_text newRule) = [] ->
   handleAddRule rules newRule = PleaseEnterText)
  /\ (Forall configurable (rules ++ [newRule]) ->
      handleAddRule rules newRule = RulesChanged (rules ++ [newRule]))
  /\ (trim (rule_text newRule) <> [] ->
      ~ Forall configurable (rules ++ [newRule]) ->
      exists e,
        handleAddRule rules newRule = FirstValidationError (Some e)
        /\ hd_error (errors (validateHighlightRules
                               (List.map toRawRule (rules ++ [newRule]))))
           = Some e).
Proof.
  unfold handleAddRule. split; [|split].
  - now intros ->.
  - intros H. pose proof H as Hall.
    apply Forall_app in H as [_ Hnew]. inversion Hnew as [|? ? [Ht _] _]; subst.
    destruct (trim (rule_text newRule)); [now contradiction Ht|].
    apply validRules_configurable in Hall. unfold validRules in Hall.
    now rewrite Hall.
  - intros Ht Hnot.
    destruct (trim (rule_text newRule)); [now contradiction Ht|].
    destruct (isValid (validateHighlightRules
                         (List.map toRawRule (rules ++ [newRule])))) eqn:E.
    + exfalso. apply Hnot. now apply validRules_configurable.
    + simpl. unfold validateHighlightRules in *. simpl in *.
      destruct (validateLoop (List.map toRawRule (rules ++ [newRule])) 0 [])
        as [|e es]; [discriminate|].
      exists e. split; reflexivity.
Qed.

Lemma add_rule_outcomes_witness :
  let rules := [ mkRule (js "excluded") (js "#e74c3c") false ] in
  let newRule := mkRule (js "appeal") (js "green") false in
  trim (rule_text newRule) <> []
  /\ ~ Forall configurable (rules ++ [newRule])
  /\ handleAddRule rules newRule = FirstValidationError (Some (ColorNotListed 1))
  /\ (exists e,
        handleAddRule rules newRule = FirstValidationError (Some e)
        /\ hd_error (errors (validateHighlightRules
                               (List.map toRawRule (rules ++ [newRule]))))
           = Some e)
  /\ Forall configurable [newRule]
  /\ handleAddRule [] newRule = RulesChanged [newRule]
  /\ trim (rule_text (mkRule (js "  ") (js "red") false)) = []
  /\ handleAddRule rules (mkRule (js "  ") (js "red") false) = PleaseEnterText.
Proof.
  intros rules newRule.
  assert (H1 : trim (rule_text newRule) <> []) by discriminate.
  assert (H2 : ~ Forall configurable (rules ++ [newRule])).
  { intros H. inversion H as [|? ? [_ Hc] _]; subst.
    simpl in Hc. repeat (destruct Hc as [Hc|Hc]; [discriminate|]).
    contradiction. }
  assert (H3 : Forall configurable [newRule]).
  { constructor; [|constructor].
    split; [discriminate|right; left; reflexivity]. }
  assert (H4 : trim (rule_text (mkRule (js "  ") (js "red") false)) = [])
    by reflexivity.
  split; [exact H1|]. split; [exact H2|].
  split; [reflexivity|].
  split; [exact (proj2 (proj2 (add_rule_outcomes rules newRule)) H1 H2)|].
  split; [exact H3|].
  split; [exact (proj1 (proj2 (add_rule_outcomes [] newRule)) H3)|].
  split; [exact H4|].
  exact (proj1 (add_rule_outcomes rules (mkRule (js "  ") (js "red") false)) H4).
Defined.

(** X19. [handleRemoveRule] takes out the rule at the index and no
    other; an index past the end removes nothing; and removing at the
    position where [handleAddRule] has just put a rule gives back the
    rules as they were. *)
Theorem remove_rule_effect :
  (forall rules index,
     handleRemoveRule rules index
     = firstn index rules ++ skipn (S index) rules)
  /\ (forall rules index,
        (List.length rules <= index)%nat ->
        handleRemoveRule rules index = rules)
  /\ (forall rules newRule updatedRules,
        handleAddRule rules newRule = RulesChanged updatedRules ->
        handleRemoveRule updatedRules (List.length rules) = rules).
Proof.
  assert (Hsplit : forall rules index,
             handleRemoveRule rules index
             = firstn index rules ++ skipn (S index) rules).
  { intros rules index. unfold handleRemoveRule.
    rewrite filterIndexFrom_split by lia. now rewrite Nat.sub_0_r. }
  split; [exact Hsplit|]. split.
  - intros rules index Hle. rewrite Hsplit.
    rewrite firstn_all2, skipn_all2 by lia. apply app_nil_r.
  - intros rules newRule updatedRules. unfold handleAddRule.
    destruct (trim (rule_text newRule)); [discriminate|].
    destruct (negb _); [discriminate|]. intros [= <-].
    rewrite Hsplit.
    rewrite skipn_all2 by (rewrite length_app; simpl; lia).
    rewrite firstn_app, Nat.sub_diag, firstn_all. simpl.
    now rewrite !app_nil_r.
Qed.

Lemma remove_rule_effect_witness :
  let rules := [ mkRule (js "excluded") (js "red") false;
                 mkRule (js "waiting period") (js "yellow") true ] in
  let newRule := mkRule (js "appeal") (js "green") false in
  (List.length rules <= 5)%nat
  /\ handleRemoveRule rules 5 = rules
  /\ handleAddRule rules newRule = RulesChanged (rules ++ [newRule])
  /\ handleRemoveRule (rules ++ [newRule]) (List.length rules) = rules.
Proof.
  intros rules newRule.
  destruct remove_rule_effect as (_ & Hpast & Hundo).
  assert (H1 : (List.length rules <= 5)%nat) by (simpl; lia).
  assert (H2 : handleAddRule rules newRule = RulesChanged (rules ++ [newRule]))
    by reflexivity.
  split; [exact H1|]. split; [exact (Hpast rules 5%nat H1)|].
  split; [exact H2|exact (Hundo rules newRule _ H2)].
Defined.

(* ================================================================== *)
(** ** The code fence around a reply *)
(* ================================================================== *)

Lemma trimStart_app_blank run s :
  allWhiteSpace run -> trimStart (run ++ s) = trimStart s.
Proof.
  induction 1 as [|c run Hc Hrun IH]; simpl; [reflexivity|]. now rewrite Hc.
Qed.

Lemma trimStart_runEnds_id s : runEnds s -> trimStart s = s.
Proof. destruct s as [|c s]; simpl; [reflexivity|]. now intros ->. Qed.

Lemma trim_around before core after :
  allWhiteSpace before -> allWhiteSpace after ->
  runEnds core -> runEnds (rev core) ->
  trim (before ++ core ++ after) = core.
Proof.
  intros Hb Ha Hc Hr. unfold trim, trimEnd.
  rewrite trimStart_app_blank by assumption.
  destruct core as [|c core].
  - simpl. rewrite (trimStart_blank after) by assumption. reflexivity.
  - rewrite (trimStart_runEnds_id ((c :: core) ++ after)) by exact Hc.
    rewrite rev_app_distr.
    rewrite (trimStart_app_blank (rev after)) by now apply Forall_rev.
    rewrite (trimStart_runEnds_id (rev (c :: core))) by assumption.
    apply rev_involutive.
Qed.

Lemma sameIgnoringCase_refl toUpperCase c :
  sameIgnoringCase toUpperCase c c = true.
Proof. unfold sameIgnoringCase. simpl. apply N.eqb_refl. Qed.

Lemma dropFences_json toUpperCase body :
  dropClosingFence toUpperCase
    (dropOpeningFence toUpperCase
       (js "```json" ++ [LF] ++ body ++ [LF] ++ js "```"))
  = body.
Proof.
  cbn [js list_ascii_of_string List.map app dropOpeningFence skipJson].
  change (N_of_ascii "`") with BACKTICK.
  change (N_of_ascii "j") with 106%N. change (N_of_ascii "s") with 115%N.
  change (N_of_ascii "o") with 111%N. change (N_of_ascii "n") with 110%N.
  rewrite !sameIgnoringCase_refl. cbn [andb skipNewline].
  rewrite sameIgnoringCase_refl.
  unfold dropClosingFence.
  rewrite rev_app_distr. cbn [rev app].
  rewrite !sameIgnoringCase_refl. cbn [andb].
  apply rev_involutive.
Qed.

(** X20. A fenced reply is unwrapped: when the reply of the model,
    whitespace around it aside, is a code fence opened by three backticks
    and "json" on a line of its own and closed by three backticks on a
    line of its own, what is handed to the JSON parser is the content
    between the two lines, trimmed. *)
Theorem fenced_reply_is_unwrapped
    (toUpperCase : code_unit -> jsstring) (before body after : jsstring) :
  allWhiteSpace before -> allWhiteSpace after ->
  textToParse toUpperCase
    (before ++ (js "```json" ++ [LF] ++ body ++ [LF] ++ js "```") ++ after)
  = trim body.
Proof.
  intros Hb Ha. unfold textToParse.
  rewrite trim_around; try assumption.
  - assert (Hf : startsWithFence
                   (js "```json" ++ [LF] ++ body ++ [LF] ++ js "```") = true)
      by reflexivity.
    rewrite Hf. now rewrite dropFences_json.
  - reflexivity.
  - rewrite !rev_app_distr. reflexivity.
Qed.

Lemma fenced_reply_is_unwrapped_witness :
  allWhiteSpace [LF; SPACE] /\ allWhiteSpace [LF]
  /\ textToParse latinUpperCase
       ([LF; SPACE]
        ++ (js "```json" ++ [LF] ++ js " [] " ++ [LF] ++ js "```") ++ [LF])
     = js "[]".
Proof.
  assert (H1 : allWhiteSpace [LF; SPACE]) by (repeat constructor).
  assert (H2 : allWhiteSpace [LF]) by (repeat constructor).
  split; [exact H1|]. split; [exact H2|].
  exact (fenced_reply_is_unwrapped latinUpperCase [LF; SPACE] (js " [] ")
           [LF] H1 H2).
Defined.

(* ================================================================== *)
(** ** Pages without text *)
(* ================================================================== *)

Lemma groupStep_nothing items :
  Forall (fun item => placedOf item = []) items ->
  forall lineMap, fold_left groupStep items lineMap = lineMap.
Proof.
  induction 1 as [|item items Hi Hitems IH]; intros lineMap; simpl.
  - reflexivity.
  - rewrite groupStep_placedOf, Hi. apply IH.
Qed.

Lemma pageLoop_blank pages :
  Forall (fun page => Forall (fun item => placedOf item = []) page) pages ->
  forall pageNum totalPages fullText,
    allWhiteSpace fullText ->
    allWhiteSpace (pageLoop pages pageNum totalPages fullText).
Proof.
  induction 1 as [|page pages Hp Hpages IH];
    intros pageNum totalPages fullText Hfull; simpl.
  - assumption.
  - apply IH.
    assert (Hempty : pageTextOf page = []).
    { unfold pageTextOf, pageLines. now rewrite groupStep_nothing. }
    rewrite Hempty. destruct (pageNum <? totalPages)%nat; simpl.
    + apply Forall_app; split; [assumption|]. repeat constructor.
    + now rewrite app_nil_r.
Qed.

(** X21. A document none of whose items has both a text and a transform
    (a scanned document, for one) is reconstructed as the empty string,
    however many pages it has: the blank lines between the pages are
    trimmed away. *)
Theorem document_without_text_is_empty (pages : list (list TextItem)) :
  Forall (fun page => Forall (fun item => placedOf item = []) page) pages ->
  extractTextFromPDF pages = [].
Proof.
  intros H. unfold extractTextFromPDF. apply trim_blank.
  apply pageLoop_blank; [assumption|constructor].
Qed.

Lemma document_without_text_is_empty_witness :
  let pages := [ [ mkTextItem [] (Some (72, 700)%Q) 0%Q ];
                 [];
                 [ mkTextItem (js "stamp") None 40%Q ] ] in
  Forall (fun page => Forall (fun item => placedOf item = []) page) pages
  /\ extractTextFromPDF pages = [].
Proof.
  intros pages.
  assert (H : Forall (fun page =>
                 Forall (fun item => placedOf item = []) page) pages)
    by (repeat constructor).
  split; [exact H|].
  exact (document_without_text_is_empty pages H).
Defined.
